(** * Token-bucket rate limiter ([rate_limiter.py])

    A shallow embedding of the [RateLimiter] class and the properties of
    its refill/consume state transition.

    Numbers.  Python's [int] and [float] values are read as exact
    rationals ([Q]): comparisons and [min] are the exact ones, arithmetic
    does not round, and the only arithmetic failure is the division by
    zero, which Python reports as [ZeroDivisionError].  Rounding and the
    non-finite floats ([inf], [nan]) are outside this model; the module
    [Binary64] runs the same lines on binary64 numbers, and the calls
    whose outcome the rounding decides are evaluated there.

    Clock.  [time.monotonic()] is an input of every operation that reads
    it: the value it returned is the argument [now]. *)

From Stdlib Require Import QArith Qminmax Qround Lqa Lia ZArith Bool List.
From Stdlib Require String DecimalString.
From Stdlib Require Floats.
Import ListNotations.

Local Open Scope Q_scope.

(** ** Python values and operators used by the class *)

Module Py.

(** The exceptions the code can raise. *)
Inductive exn : Type :=
| ZeroDivisionError.

(** Outcome of a Python call: a returned value or a raised exception. *)
Inductive result (A : Type) : Type :=
| Return (a : A)
| Raise (e : exn).

Arguments Return {A} a.
Arguments Raise {A} e.

Definition raises {A : Type} (r : result A) : bool :=
  match r with
  | Return _ => false
  | Raise _ => true
  end.

(** [a < b] and [a >= b] as Python evaluates them. *)
Definition lt (a b : Q) : bool := negb (Qle_bool b a).
Definition ge (a b : Q) : bool := Qle_bool b a.

(** The builtin [min(a, b)] of two arguments: the first one, unless the
    second is strictly smaller. *)
Definition min (a b : Q) : Q := if lt b a then b else a.

(** True division [a / b]. *)
Definition truediv (a b : Q) : result Q :=
  if Qeq_bool b 0 then Raise ZeroDivisionError else Return (a / b).

End Py.

Import Py.

(** ** The class *)

Module RateLimiter.

(** The instance attributes.  The [lock] attribute is the subject of the
    concurrent model in [Threads]; a single caller always finds it free
    and leaves it free. *)
Record t : Type := mk {
  max_tokens : Q;
  tokens_per_second : Q;
  tokens : Q;
  last_refill : Q
}.

Definition set_tokens (self : t) (v : Q) : t :=
  mk (max_tokens self) (tokens_per_second self) v (last_refill self).

Definition set_last_refill (self : t) (v : Q) : t :=
  mk (max_tokens self) (tokens_per_second self) (tokens self) v.

(** [__init__(self, max_tokens, tokens_per_second)], with [now] the value
    of [time.monotonic()]. *)
Definition __init__ (now max_tokens tokens_per_second : Q) : result t :=
  Return (mk max_tokens tokens_per_second max_tokens now).

(** [_refill_tokens(self)]. *)
Definition _refill_tokens (now : Q) (self : t) : t :=
  let time_elapsed := now - last_refill self in
  let tokens_to_add := time_elapsed * tokens_per_second self in
  let self := set_tokens self (min (max_tokens self) (tokens self + tokens_to_add)) in
  set_last_refill self now.

(** [allow_request(self, cost)]: the returned pair or the exception, and
    the instance as the call leaves it. *)
Definition allow_request (now cost : Q) (self : t) : result (bool * Q) * t :=
  let self := _refill_tokens now self in
  if ge (tokens self) cost then
    let self := set_tokens self (tokens self - cost) in
    (Return (true, tokens self), self)
  else
    match truediv (cost - tokens self) (tokens_per_second self) with
    | Return wait_time => (Return (false, wait_time), self)
    | Raise e => (Raise e, self)
    end.

(** A sequence of calls, each with the clock value it reads and its cost:
    the outcome of every call, the instance after its refill and the
    instance it leaves. *)
Record step_obs : Type := obs {
  outcome : result (bool * Q);
  refilled : t;
  after : t
}.

Fixpoint run (calls : list (Q * Q)) (self : t) : list step_obs :=
  match calls with
  | [] => []
  | (now, cost) :: rest =>
      let r := allow_request now cost self in
      obs (fst r) (_refill_tokens now self) (snd r) :: run rest (snd r)
  end.

(** The flag of a call that returned. *)
Definition allowed (r : result (bool * Q)) : option bool :=
  match r with
  | Return (b, _) => Some b
  | Raise _ => None
  end.

(** The clock values of successive calls never go back, starting from
    the instance's [last_refill]. *)
Fixpoint clock_monotone (t0 : Q) (calls : list (Q * Q)) : Prop :=
  match calls with
  | [] => True
  | (now, _) :: rest => t0 <= now /\ clock_monotone now rest
  end.

(** The level invariant of the bucket. *)
Definition level_ok (self : t) : Prop :=
  0 <= tokens self /\ tokens self <= max_tokens self.

End RateLimiter.

Import RateLimiter.

(** ** Concurrent callers

    Several threads call [allow_request] on one instance.  A thread runs
    the method one source line at a time, and the scheduler may switch to
    another thread between any two lines.  [lock] is the state of
    [self.lock]: the [with] statement of line 52 takes it, and can only be
    run when it is free; leaving the block, by [return] or by an exception,
    releases it. *)

Module Threads.

(** Where a thread is: outside the method, about to start its next call
    at line 52, or about to run the given line inside the [with] block.

    - [L33]: [now = time.monotonic()]
    - [L35]: [time_elapsed = now - self.last_refill]
    - [L37]: [tokens_to_add = time_elapsed * self.tokens_per_second]
    - [L40]: [self.tokens = min(self.max_tokens, self.tokens + tokens_to_add)]
    - [L41]: [self.last_refill = now]
    - [L55]: [if self.tokens >= cost]
    - [L57]: [self.tokens -= cost]
    - [L58]: [return True, self.tokens]
    - [L61]: [wait_time = (cost - self.tokens) / self.tokens_per_second]
    - [L62]: [return False, wait_time] *)
Inductive pc : Type :=
| Idle
| L33 | L35 | L37 | L40 | L41
| L55 | L57 | L58 | L61 | L62.

(** A thread: its position, the costs of the calls it still has to make,
    and the argument and local variables of the call it is in. *)
Record thread : Type := mkThread {
  at_line : pc;
  todo : list Q;
  cost : Q;
  now : Q;
  time_elapsed : Q;
  tokens_to_add : Q;
  wait_time : Q
}.

Definition goto (l : pc) (th : thread) : thread :=
  mkThread l (todo th) (cost th) (now th) (time_elapsed th)
           (tokens_to_add th) (wait_time th).

(** What an observer sees: a call ending, with the clock value it read,
    its cost and its outcome, or the clock advancing. *)
Inductive event : Type :=
| Returned (now cost : Q) (r : result (bool * Q))
| Ticked (d : Q).

(** One line of one thread.  [None]: the thread cannot run (it has no
    call left, or it waits for the lock). *)
Definition thread_step (clock : Q) (self : t) (lock : bool) (th : thread)
  : option (t * bool * thread * list event) :=
  match at_line th with
  | Idle =>
      match todo th with
      | [] => None
      | c :: rest =>
          if lock then None
          else Some (self, true,
                     mkThread L33 rest c (now th) (time_elapsed th)
                              (tokens_to_add th) (wait_time th), [])
      end
  | L33 =>
      Some (self, lock,
            mkThread L35 (todo th) (cost th) clock (time_elapsed th)
                     (tokens_to_add th) (wait_time th), [])
  | L35 =>
      Some (self, lock,
            mkThread L37 (todo th) (cost th) (now th)
                     (now th - last_refill self)
                     (tokens_to_add th) (wait_time th), [])
  | L37 =>
      Some (self, lock,
            mkThread L40 (todo th) (cost th) (now th) (time_elapsed th)
                     (time_elapsed th * tokens_per_second self)
                     (wait_time th), [])
  | L40 =>
      Some (set_tokens self
              (min (max_tokens self) (tokens self + tokens_to_add th)),
            lock, goto L41 th, [])
  | L41 =>
      Some (set_last_refill self (now th), lock, goto L55 th, [])
  | L55 =>
      if ge (tokens self) (cost th)
      then Some (self, lock, goto L57 th, [])
      else Some (self, lock, goto L61 th, [])
  | L57 =>
      Some (set_tokens self (tokens self - cost th), lock, goto L58 th, [])
  | L58 =>
      Some (self, false, goto Idle th,
            [Returned (now th) (cost th) (Return (true, tokens self))])
  | L61 =>
      match truediv (cost th - tokens self) (tokens_per_second self) with
      | Return w =>
          Some (self, lock,
                mkThread L62 (todo th) (cost th) (now th) (time_elapsed th)
                         (tokens_to_add th) w, [])
      | Raise e =>
          (* the exception leaves the block and ends the thread *)
          Some (self, false,
                mkThread Idle [] (cost th) (now th) (time_elapsed th)
                         (tokens_to_add th) (wait_time th),
                [Returned (now th) (cost th) (Raise e)])
      end
  | L62 =>
      Some (self, false, goto Idle th,
            [Returned (now th) (cost th) (Return (false, wait_time th))])
  end.

Record system : Type := mkSystem {
  bucket : t;
  lock : bool;
  clock : Q;
  threads : list thread
}.

(** A step of the system: any thread that can run does one line, or the
    clock advances. *)
Inductive step : system -> list event -> system -> Prop :=
| step_thread (before : list thread) (th : thread) (behind : list thread)
              (self : t) (lk : bool) (clk : Q)
              (self' : t) (lk' : bool) (th' : thread) (evs : list event) :
    thread_step clk self lk th = Some (self', lk', th', evs) ->
    step (mkSystem self lk clk (before ++ th :: behind)) evs
         (mkSystem self' lk' clk (before ++ th' :: behind))
| step_tick (self : t) (lk : bool) (clk d : Q) (ths : list thread) :
    0 <= d ->
    step (mkSystem self lk clk ths) [Ticked d]
         (mkSystem self lk (clk + d) ths).

(** Executions, with everything observed on the way. *)
Inductive steps (s0 : system) : list event -> system -> Prop :=
| steps_nil : steps s0 [] s0
| steps_snoc (tr : list event) (s : system) (evs : list event) (s' : system) :
    steps s0 tr s -> step s evs s' -> steps s0 (tr ++ evs) s'.

(** The threads start outside the method, each with the costs of the
    calls it will make, on an instance whose lock is free. *)
Definition spawn (self : t) (clk : Q) (programs : list (list Q)) : system :=
  mkSystem self false clk
           (map (fun costs => mkThread Idle costs 0 0 0 0 0) programs).

(** A scheduler: the thread to run at each step. *)
Fixpoint replace_nth {A : Type} (i : nat) (x : A) (l : list A) : list A :=
  match l, i with
  | [], _ => []
  | _ :: l', O => x :: l'
  | y :: l', S i' => y :: replace_nth i' x l'
  end.

Fixpoint schedule (order : list nat) (s : system)
  : option (list event * system) :=
  match order with
  | [] => Some ([], s)
  | i :: rest =>
      match nth_error (threads s) i with
      | None => None
      | Some th =>
          match thread_step (clock s) (bucket s) (lock s) th with
          | None => None
          | Some (self', lk', th', evs) =>
              match schedule rest
                      (mkSystem self' lk' (clock s)
                                (replace_nth i th' (threads s))) with
              | None => None
              | Some (tr, s') => Some (evs ++ tr, s')
              end
          end
      end
  end.

Definition in_block (th : thread) : bool :=
  match at_line th with
  | Idle => false
  | _ => true
  end.

(** Number of threads inside the [with] block. *)
Definition holders (ths : list thread) : nat :=
  length (filter in_block ths).

(** Every thread is outside the method with no call left. *)
Definition finished (s : system) : Prop :=
  Forall (fun th => at_line th = Idle /\ todo th = []) (threads s).

(** The calls that ended, in the order in which they ended. *)
Fixpoint calls_of (tr : list event) : list (Q * Q) :=
  match tr with
  | [] => []
  | Returned n c _ :: tr' => (n, c) :: calls_of tr'
  | Ticked _ :: tr' => calls_of tr'
  end.

Fixpoint outcomes_of (tr : list event) : list (result (bool * Q)) :=
  match tr with
  | [] => []
  | Returned _ _ r :: tr' => r :: outcomes_of tr'
  | Ticked _ :: tr' => outcomes_of tr'
  end.

Fixpoint frozen (tr : list event) : bool :=
  match tr with
  | [] => true
  | Returned _ _ _ :: tr' => frozen tr'
  | Ticked _ :: _ => false
  end.

Definition is_allowed (r : result (bool * Q)) : bool :=
  match r with
  | Return (true, _) => true
  | _ => false
  end.

(** Number of calls that were allowed. *)
Definition admitted (tr : list event) : nat :=
  length (filter is_allowed (outcomes_of tr)).

End Threads.

(** The instance after a sequence of calls made one after the other. *)
Fixpoint after_calls (calls : list (Q * Q)) (self : t) : t :=
  match calls with
  | [] => self
  | (now, cost) :: rest => after_calls rest (snd (allow_request now cost self))
  end.

Import Threads.

(** ** Invariants of the concurrent model *)

(** The instance seen by the thread that holds the lock, against the
    instance [base] it found when it took the lock: each line has done its
    part of [allow_request (now th) (cost th) base]. *)
Definition in_progress (base : t) (th : thread) (self : t) : Prop :=
  match at_line th with
  | Idle => False
  | L33 | L35 => self = base
  | L37 => self = base /\ time_elapsed th = now th - last_refill base
  | L40 =>
      self = base /\
      tokens_to_add th = (now th - last_refill base) * tokens_per_second base
  | L41 =>
      self = set_tokens base
               (min (max_tokens base)
                    (tokens base
                     + (now th - last_refill base) * tokens_per_second base))
  | L55 => self = _refill_tokens (now th) base
  | L57 =>
      self = _refill_tokens (now th) base /\ ge (tokens self) (cost th) = true
  | L58 =>
      allow_request (now th) (cost th) base = (Return (true, tokens self), self)
  | L61 =>
      self = _refill_tokens (now th) base /\ ge (tokens self) (cost th) = false
  | L62 =>
      allow_request (now th) (cost th) base
      = (Return (false, wait_time th), self)
  end.

Definition idle (th : thread) : Prop := in_block th = false.

(** The state of the system against the calls that have ended: their
    outcomes are those of the same calls made one after the other, in the
    order in which they ended; a free lock comes with the instance these
    calls leave; a held lock comes with exactly one thread in the block. *)
Definition linearized (self0 : t) (tr : list event) (s : system) : Prop :=
  outcomes_of tr = map outcome (run (calls_of tr) self0) /\
  if lock s then
    exists before th behind,
      threads s = before ++ th :: behind /\
      Forall idle before /\ Forall idle behind /\
      in_progress (after_calls (calls_of tr) self0) th (bucket s)
  else
    Forall idle (threads s) /\
    bucket s = after_calls (calls_of tr) self0.

(** What a thread holds when every call has the cost [c0] and every clock
    value read is [clk0]. *)
Definition thread_uniform (clk0 c0 : Q) (th : thread) : Prop :=
  Forall (fun c => c = c0) (todo th) /\
  match at_line th with
  | Idle => True
  | L33 => cost th = c0
  | _ => cost th = c0 /\ now th = clk0
  end.

Definition uniform (clk0 c0 : Q) (tr : list event) (s : system) : Prop :=
  clock s = clk0 /\
  Forall (thread_uniform clk0 c0) (threads s) /\
  Forall (fun call => (clk0, c0) = call) (calls_of tr).

(** Calls a thread has not finished: those it has not started, and the one
    it is in. *)
Definition pending (th : thread) : nat :=
  (length (todo th) + if in_block th then 1 else 0)%nat.

Definition pending_all (ths : list thread) : nat :=
  list_sum (map pending ths).

(** Lines a thread still has to run, at most. *)
Definition lines_left (l : pc) : nat :=
  match l with
  | Idle => 0
  | L33 => 9 | L35 => 8 | L37 => 7 | L40 => 6 | L41 => 5
  | L55 => 4 | L57 => 3 | L61 => 2 | L58 => 1 | L62 => 1
  end.

Definition work (th : thread) : nat :=
  (10 * length (todo th) + lines_left (at_line th))%nat.

Definition work_all (ths : list thread) : nat := list_sum (map work ths).

(** ** The demonstration driver

    [make_requests] and the main block of the file.  Printed lines are
    collected in a list.  [clock i] is the value [time.monotonic()]
    returns inside the call of iteration [i], after the [time.sleep]. *)

Module Demo.

Import String.

(** The default value of the parameter [cost] of [allow_request]. *)
Definition default_cost : Q := 1.

(** Truth value of a tuple used as a condition: a tuple is false only when
    it is empty, and a pair has two components. *)
Definition len {A B : Type} (pair : A * B) : nat := 2.

Definition truth {A B : Type} (pair : A * B) : bool :=
  negb (Nat.eqb (len pair) 0).

(** [str(n)] for an integer that is not negative. *)
Definition str (n : nat) : string :=
  DecimalString.NilEmpty.string_of_uint (Nat.to_uint n).

(** The two f-strings of [make_requests], for the loop index [i]. *)
Definition allowed_line (thread_id i : nat) : string :=
  ("Thread " ++ str thread_id ++ ": Request " ++ str (i + 1)
   ++ " ALLOWED")%string.

Definition denied_line (thread_id i : nat) : string :=
  ("Thread " ++ str thread_id ++ ": Request " ++ str (i + 1)
   ++ " DENIED - Rate Limited")%string.

(** The last character of a string. *)
Fixpoint last_char (s : string) : option Ascii.ascii :=
  match s with
  | EmptyString => None
  | String c rest =>
      match last_char rest with
      | None => Some c
      | Some c' => Some c'
      end
  end.

(** The loop of [make_requests] over the indices of [range(num_requests)]:
    the lines printed, how the loop ended, and the limiter it leaves.  An
    exception raised by [allow_request] ends the loop. *)
Fixpoint make_requests_loop (clock : nat -> Q) (thread_id : nat)
         (indices : list nat) (limiter : t)
  : list string * result unit * t :=
  match indices with
  | [] => ([], Return tt, limiter)
  | i :: rest =>
      match allow_request (clock i) default_cost limiter with
      | (Raise e, limiter') => ([], Raise e, limiter')
      | (Return decision, limiter') =>
          let printed :=
            if truth decision then allowed_line thread_id i
            else denied_line thread_id i in
          match make_requests_loop clock thread_id rest limiter' with
          | (out, r, final) => (printed :: out, r, final)
          end
      end
  end.

(** [make_requests(limiter, thread_id, num_requests)]. *)
Definition make_requests (clock : nat -> Q) (limiter : t)
           (thread_id num_requests : nat) : list string * result unit * t :=
  make_requests_loop clock thread_id (seq 0 num_requests) limiter.

(** The calls one [make_requests] thread makes, as a program of the
    concurrent model. *)
Definition program (num_requests : nat) : list Q :=
  repeat default_cost num_requests.

(** The main block: a limiter with 30 tokens refilled at 10 per second,
    and 10 threads of 5 requests each. *)
Definition main (clk : Q) : result system :=
  match __init__ clk 30 10 with
  | Return limiter => Return (spawn limiter clk (repeat (program 5) 10))
  | Raise e => Raise e
  end.

End Demo.

(** ** Clock values of a sequence of calls *)

(** The clock value of the last call of a sequence, [t0] if there is
    none. *)
Fixpoint last_time (t0 : Q) (calls : list (Q * Q)) : Q :=
  match calls with
  | [] => t0
  | (now, _) :: rest => last_time now rest
  end.

(** ** Clock values and costs in the concurrent model *)

(** A thread that has read the clock read it after the last call ended,
    and the clock has not gone back since. *)
Definition thread_timed (t_last clk : Q) (th : thread) : Prop :=
  match at_line th with
  | Idle | L33 => True
  | _ => t_last <= now th /\ now th <= clk
  end.

Definition timed (self0 : t) (tr : list event) (s : system) : Prop :=
  clock_monotone (last_refill self0) (calls_of tr) /\
  last_time (last_refill self0) (calls_of tr) <= clock s /\
  Forall (thread_timed (last_time (last_refill self0) (calls_of tr)) (clock s))
         (threads s).

(** Every cost a thread uses satisfies [P]. *)
Definition thread_costs (P : Q -> Prop) (th : thread) : Prop :=
  Forall P (todo th) /\ (in_block th = true -> P (cost th)).

Definition costs_in (P : Q -> Prop) (tr : list event) (s : system) : Prop :=
  Forall (thread_costs P) (threads s) /\
  Forall (fun call => P (snd call)) (calls_of tr).

(** ** The class in the arithmetic of the code

    Python's [float] is the IEEE 754 binary64 format; its [+], [-], [*] and
    [/] round to nearest.  This second model of the class runs the same
    lines on the binary64 numbers of the kernel, so that a call can be
    evaluated bit for bit.  An [int] attribute is read as the binary64
    number of the same value, which is exact below 2^53.  The rational
    model above is this one without the rounding. *)

Module Binary64.

Import PrimFloat.

Record t : Type := mk {
  max_tokens : float;
  tokens_per_second : float;
  tokens : float;
  last_refill : float
}.

Definition set_tokens (self : t) (v : float) : t :=
  mk (max_tokens self) (tokens_per_second self) v (last_refill self).

Definition set_last_refill (self : t) (v : float) : t :=
  mk (max_tokens self) (tokens_per_second self) (tokens self) v.

(** [a >= b], the builtin [min(a, b)] and [a / b] on binary64 numbers. *)
Definition ge (a b : float) : bool := leb b a.

Definition min (a b : float) : float := if ltb b a then b else a.

Definition truediv (a b : float) : result float :=
  if eqb b 0 then Raise ZeroDivisionError else Return (a / b)%float.

(** [__init__(self, max_tokens, tokens_per_second)]. *)
Definition __init__ (now max_tokens tokens_per_second : float) : result t :=
  Return (mk max_tokens tokens_per_second max_tokens now).

(** [_refill_tokens(self)]. *)
Definition _refill_tokens (now : float) (self : t) : t :=
  let time_elapsed := (now - last_refill self)%float in
  let tokens_to_add := (time_elapsed * tokens_per_second self)%float in
  let self :=
    set_tokens self (min (max_tokens self) (tokens self + tokens_to_add)%float) in
  set_last_refill self now.

(** [allow_request(self, cost)]. *)
Definition allow_request (now cost : float) (self : t)
  : result (bool * float) * t :=
  let self := _refill_tokens now self in
  if ge (tokens self) cost then
    let self := set_tokens self (tokens self - cost)%float in
    (Return (true, tokens self), self)
  else
    match truediv (cost - tokens self)%float (tokens_per_second self) with
    | Return wait_time => (Return (false, wait_time), self)
    | Raise e => (Raise e, self)
    end.

(** The flags of a sequence of calls, each with the clock value it reads
    and its cost; [None] for a call that raises. *)
Fixpoint flags (calls : list (float * float)) (self : t) : list (option bool) :=
  match calls with
  | [] => []
  | (now, cost) :: rest =>
      match allow_request now cost self with
      | (Return (flag, _), self') => Some flag :: flags rest self'
      | (Raise _, self') => None :: flags rest self'
      end
  end.

End Binary64.

(** ** Basic facts about the operators *)

Lemma lt_true_iff (a b : Q) : lt a b = true <-> a < b.
Proof.
  unfold lt. rewrite negb_true_iff.
  split; intro H.
  - apply Qnot_le_lt. intro Hle. apply Qle_bool_iff in Hle. congruence.
  - destruct (Qle_bool b a) eqn:E; [| reflexivity].
    apply Qle_bool_iff in E. lra.
Qed.

Lemma lt_false_iff (a b : Q) : lt a b = false <-> b <= a.
Proof.
  unfold lt. rewrite negb_false_iff. apply Qle_bool_iff.
Qed.

Lemma ge_true_iff (a b : Q) : ge a b = true <-> b <= a.
Proof. unfold ge. apply Qle_bool_iff. Qed.

Lemma ge_false_iff (a b : Q) : ge a b = false <-> a < b.
Proof.
  unfold ge. split; intro H.
  - apply Qnot_le_lt. intro Hle. apply Qle_bool_iff in Hle. congruence.
  - destruct (Qle_bool b a) eqn:E; [| reflexivity].
    apply Qle_bool_iff in E. lra.
Qed.

(** Python's [min] is the minimum of the rationals. *)
Lemma min_Qmin (a b : Q) : min a b = Qmin a b.
Proof.
  unfold min, Qmin, GenericMinMax.gmin.
  destruct (lt b a) eqn:E.
  - apply lt_true_iff in E. apply Qgt_alt in E. rewrite E. reflexivity.
  - apply lt_false_iff in E.
    destruct (a ?= b) eqn:C; try reflexivity.
    apply Qgt_alt in C. lra.
Qed.

Lemma min_le_l (a b : Q) : min a b <= a.
Proof.
  unfold min. destruct (lt b a) eqn:E.
  - apply lt_true_iff in E. lra.
  - lra.
Qed.

Lemma min_le_r (a b : Q) : min a b <= b.
Proof.
  unfold min. destruct (lt b a) eqn:E.
  - lra.
  - apply lt_false_iff in E. lra.
Qed.

Lemma min_glb (a b c : Q) : c <= a -> c <= b -> c <= min a b.
Proof. intros Ha Hb. unfold min. destruct (lt b a); assumption. Qed.

Lemma min_left (a b : Q) : a <= b -> min a b = a.
Proof.
  intro H. unfold min. destruct (lt b a) eqn:E; [| reflexivity].
  apply lt_true_iff in E. lra.
Qed.

Lemma min_right (a b : Q) : b < a -> min a b = b.
Proof.
  intro H. unfold min. apply lt_true_iff in H. rewrite H. reflexivity.
Qed.

Lemma truediv_nonzero (a b : Q) : ~ b == 0 -> truediv a b = Return (a / b).
Proof.
  intro H. unfold truediv.
  destruct (Qeq_bool b 0) eqn:E; [| reflexivity].
  apply Qeq_bool_iff in E. contradiction.
Qed.

Lemma truediv_zero (a b : Q) : b == 0 -> truediv a b = Raise ZeroDivisionError.
Proof.
  intro H. unfold truediv. apply Qeq_bool_iff in H. rewrite H. reflexivity.
Qed.

(** ** The refill step *)

Lemma refill_fields (now : Q) (self : t) :
  max_tokens (_refill_tokens now self) = max_tokens self /\
  tokens_per_second (_refill_tokens now self) = tokens_per_second self /\
  last_refill (_refill_tokens now self) = now /\
  tokens (_refill_tokens now self) =
    min (max_tokens self)
        (tokens self + (now - last_refill self) * tokens_per_second self).
Proof. repeat split. Qed.

(** With a clock that did not go back and a rate that is not negative, a
    refill keeps the level between its old value and the capacity. *)
Lemma refill_bounds (now : Q) (self : t) :
  tokens self <= max_tokens self ->
  0 <= tokens_per_second self ->
  last_refill self <= now ->
  tokens self <= tokens (_refill_tokens now self) /\
  tokens (_refill_tokens now self) <= max_tokens self.
Proof.
  intros Hcap Hrate Hclock. cbn.
  split; [apply min_glb | apply min_le_l].
  - assumption.
  - assert (0 <= (now - last_refill self) * tokens_per_second self)
      by (apply Qmult_le_0_compat; lra).
    lra.
Qed.

Lemma refill_level_ok (now : Q) (self : t) :
  level_ok self ->
  0 <= tokens_per_second self ->
  last_refill self <= now ->
  level_ok (_refill_tokens now self).
Proof.
  intros [H0 Hcap] Hrate Hclock.
  destruct (refill_bounds now self Hcap Hrate Hclock) as [Hlo Hhi].
  split; [lra | exact Hhi].
Qed.

(** ** One call *)

Lemma allow_request_allowed (now cost : Q) (self : t) :
  cost <= tokens (_refill_tokens now self) ->
  allow_request now cost self =
    (Return (true, tokens (_refill_tokens now self) - cost),
     set_tokens (_refill_tokens now self)
                (tokens (_refill_tokens now self) - cost)).
Proof.
  intro H. unfold allow_request.
  apply ge_true_iff in H. rewrite H. reflexivity.
Qed.

Lemma allow_request_denied (now cost : Q) (self : t) :
  tokens (_refill_tokens now self) < cost ->
  ~ tokens_per_second self == 0 ->
  allow_request now cost self =
    (Return (false,
             (cost - tokens (_refill_tokens now self)) / tokens_per_second self),
     _refill_tokens now self).
Proof.
  intros H Hrate. unfold allow_request.
  apply ge_false_iff in H. rewrite H.
  change (tokens_per_second (_refill_tokens now self))
    with (tokens_per_second self).
  rewrite truediv_nonzero by exact Hrate. reflexivity.
Qed.

Lemma allow_request_zero_rate (now cost : Q) (self : t) :
  tokens (_refill_tokens now self) < cost ->
  tokens_per_second self == 0 ->
  allow_request now cost self = (Raise ZeroDivisionError, _refill_tokens now self).
Proof.
  intros H Hrate. unfold allow_request.
  apply ge_false_iff in H. rewrite H.
  change (tokens_per_second (_refill_tokens now self))
    with (tokens_per_second self).
  rewrite truediv_zero by exact Hrate. reflexivity.
Qed.

(** The three ways a call can end. *)
Lemma allow_request_cases (now cost : Q) (self : t) :
  let r := _refill_tokens now self in
  (cost <= tokens r /\
   allow_request now cost self =
     (Return (true, tokens r - cost), set_tokens r (tokens r - cost)))
  \/ (tokens r < cost /\ ~ tokens_per_second self == 0 /\
      allow_request now cost self =
        (Return (false, (cost - tokens r) / tokens_per_second self), r))
  \/ (tokens r < cost /\ tokens_per_second self == 0 /\
      allow_request now cost self = (Raise ZeroDivisionError, r)).
Proof.
  intro r. subst r.
  destruct (Qlt_le_dec (tokens (_refill_tokens now self)) cost) as [Hlt | Hle].
  - right.
    destruct (Qeq_dec (tokens_per_second self) 0) as [Hz | Hnz].
    + right. auto using allow_request_zero_rate.
    + left. auto using allow_request_denied.
  - left. auto using allow_request_allowed.
Qed.

(** A call with a cost that is not negative keeps the level invariant. *)
Lemma allow_request_level_ok (now cost : Q) (self : t) :
  level_ok self ->
  0 <= tokens_per_second self ->
  last_refill self <= now ->
  0 <= cost ->
  level_ok (snd (allow_request now cost self)).
Proof.
  intros Hok Hrate Hclock Hcost.
  pose proof (refill_level_ok now self Hok Hrate Hclock) as [H0 Hcap].
  destruct (allow_request_cases now cost self)
    as [[Hle E] | [[Hlt [_ E]] | [Hlt [_ E]]]]; rewrite E; cbn [snd].
  - split; cbn [tokens max_tokens set_tokens].
    + change (0 <= tokens (_refill_tokens now self) - cost). lra.
    + change (tokens (_refill_tokens now self) - cost
              <= max_tokens (_refill_tokens now self)). lra.
  - split; assumption.
  - split; assumption.
Qed.

Lemma allow_request_last_refill (now cost : Q) (self : t) :
  last_refill (snd (allow_request now cost self)) = now.
Proof.
  destruct (allow_request_cases now cost self)
    as [[_ E] | [[_ [_ E]] | [_ [_ E]]]]; rewrite E; reflexivity.
Qed.

Lemma allow_request_config (now cost : Q) (self : t) :
  max_tokens (snd (allow_request now cost self)) = max_tokens self /\
  tokens_per_second (snd (allow_request now cost self)) = tokens_per_second self.
Proof.
  destruct (allow_request_cases now cost self)
    as [[_ E] | [[_ [_ E]] | [_ [_ E]]]]; rewrite E; split; reflexivity.
Qed.

(** ** Sequences of calls *)

Lemma run_level_ok (calls : list (Q * Q)) :
  forall self : t,
    level_ok self ->
    0 <= tokens_per_second self ->
    clock_monotone (last_refill self) calls ->
    Forall (fun c => 0 < snd c) calls ->
    Forall (fun o => level_ok (refilled o) /\ level_ok (after o)) (run calls self).
Proof.
  induction calls as [| [now cost] rest IH]; intros self Hok Hrate Hclock Hcost.
  - constructor.
  - destruct Hclock as [Hnow Hrest].
    inversion Hcost as [| c l Hc Hl]; subst. cbn [snd] in Hc.
    cbn [run]. constructor.
    + cbn [refilled after]. split.
      * apply refill_level_ok; assumption.
      * apply allow_request_level_ok; try assumption. lra.
    + apply IH.
      * apply allow_request_level_ok; try assumption. lra.
      * rewrite (proj2 (allow_request_config now cost self)). assumption.
      * rewrite allow_request_last_refill. assumption.
      * assumption.
Qed.

(** C1.  A bucket built with a positive capacity and a positive refill rate
    starts with its level in [0, capacity]; over every sequence of
    [allow_request] calls with positive costs and clock values that never
    go back, the level is in [0, capacity] after every refill and after
    every call. *)
Theorem C1_level_invariant
    (t0 capacity rate : Q) (self : t) (calls : list (Q * Q)) :
  0 < capacity ->
  0 < rate ->
  __init__ t0 capacity rate = Return self ->
  clock_monotone t0 calls ->
  Forall (fun c => 0 < snd c) calls ->
  level_ok self /\
  Forall (fun o => level_ok (refilled o) /\ level_ok (after o)) (run calls self).
Proof.
  intros Hcap Hrate Hinit Hclock Hcost.
  unfold __init__ in Hinit. injection Hinit as <-.
  assert (Hok : level_ok (mk capacity rate capacity t0))
    by (unfold level_ok; cbn; lra).
  split; [exact Hok |].
  apply run_level_ok; try assumption.
  cbn. lra.
Qed.

Lemma C1_level_invariant_witness :
  let self := mk 3 1 3 0 in
  let calls := [(0, 2); (1 # 2, 2); (5, 1)] in
  level_ok self /\
  Forall (fun o => level_ok (refilled o) /\ level_ok (after o)) (run calls self).
Proof.
  apply (C1_level_invariant 0 3 1 (mk 3 1 3 0) [(0, 2); (1 # 2, 2); (5, 1)]).
  - reflexivity.
  - reflexivity.
  - reflexivity.
  - cbn. repeat split; discriminate.
  - repeat constructor.
Defined.

(** A refill that reads the clock value of the previous refill leaves the
    level as it is, as long as the level does not exceed the capacity. *)
Lemma refill_zero_elapsed (now : Q) (self : t) :
  last_refill self == now ->
  tokens self <= max_tokens self ->
  tokens (_refill_tokens now self) == tokens self.
Proof.
  intros Hclock Hcap. cbn.
  assert (E : (now - last_refill self) * tokens_per_second self == 0)
    by (rewrite Hclock; ring).
  unfold min.
  destruct (lt _ _) eqn:L.
  - lra.
  - apply lt_false_iff in L. lra.
Qed.

Lemma inject_Z_succ (k : nat) :
  inject_Z (Z.of_nat (S k)) == inject_Z (Z.of_nat k) + 1.
Proof.
  rewrite Nat2Z.inj_succ, <- Z.add_1_r, inject_Z_plus. reflexivity.
Qed.






(** ** Argument and configuration checks *)

(** C3, as claimed, fails: a call with cost 0 returns normally, allowed, and
    leaves both [tokens] and [last_refill] changed. *)
Lemma C3_zero_cost_is_accepted :
  let self := mk 10 1 5 0 in
  allow_request 1 0 self = (Return (true, 6), mk 10 1 6 1) /\
  raises (fst (allow_request 1 0 self)) = false /\
  tokens (snd (allow_request 1 0 self)) <> tokens self /\
  last_refill (snd (allow_request 1 0 self)) <> last_refill self.
Proof. vm_compute. repeat split; discriminate. Qed.

(** C3, amended.  [allow_request] does not check its cost.  A call whose
    cost is zero or negative never raises: on a bucket whose level after
    the refill is not negative it is allowed, returns the level after the
    refill minus the cost, and stores that level and the clock value. *)
Theorem C3_nonpositive_cost_allowed (now cost : Q) (self : t) :
  cost <= 0 ->
  0 <= tokens (_refill_tokens now self) ->
  let r := _refill_tokens now self in
  allow_request now cost self
  = (Return (true, tokens r - cost),
     mk (max_tokens self) (tokens_per_second self) (tokens r - cost) now).
Proof.
  intros Hcost Hlevel r.
  rewrite allow_request_allowed by lra. reflexivity.
Qed.

Lemma C3_nonpositive_cost_allowed_witness :
  allow_request 1 (-2) (mk 10 1 5 0)
  = (Return (true, tokens (_refill_tokens 1 (mk 10 1 5 0)) - (-2)),
     mk 10 1 (tokens (_refill_tokens 1 (mk 10 1 5 0)) - (-2)) 1).
Proof.
  apply (C3_nonpositive_cost_allowed 1 (-2) (mk 10 1 5 0)).
  - discriminate.
  - vm_compute. discriminate.
Defined.

(** C4, as claimed, fails: a capacity of 0 with a rate of -1 builds a
    bucket. *)
Lemma C4_nonpositive_config_is_accepted :
  __init__ 7 0 (-1) = Return (mk 0 (-1) 0 7) /\
  raises (__init__ 7 0 (-1)) = false.
Proof. split; reflexivity. Qed.

(** C4, amended.  Construction checks nothing: for every capacity and every
    rate it returns a bucket with these two values, a level equal to the
    capacity and [last_refill] equal to the clock value read. *)
Theorem C4_init_total (now capacity rate : Q) :
  exists self : t,
    __init__ now capacity rate = Return self /\
    max_tokens self = capacity /\
    tokens_per_second self = rate /\
    tokens self = capacity /\
    last_refill self = now.
Proof.
  exists (mk capacity rate capacity now). repeat split.
Qed.

(** ** Retry after a denial *)

(** C5, as claimed, fails: a cost above the capacity is denied, and denied
    again after waiting for the returned time. *)
Lemma C5_retry_denied_above_capacity :
  let self := mk 1 1 1 0 in
  allow_request 0 2 self = (Return (false, 1), self) /\
  allowed (fst (allow_request (0 + 1) 2 self)) = Some false.
Proof. vm_compute. split; reflexivity. Qed.

(** C5, amended.  On a bucket with a positive rate, a denied call returns
    the wait (cost - level) / rate for the level after the refill, which is
    positive, and changes nothing else.  The same call made later is
    allowed as soon as the refill has brought the level up to the cost:
    whenever cost <= capacity and the level left by the denied call plus
    the tokens added since, elapsed * rate, is at least the cost. *)
Theorem C5_retry_after_denial (now cost wait : Q) (self after_denial : t) :
  0 < tokens_per_second self ->
  allow_request now cost self = (Return (false, wait), after_denial) ->
  wait = (cost - tokens (_refill_tokens now self)) / tokens_per_second self /\
  0 < wait /\
  after_denial = _refill_tokens now self /\
  forall now' : Q,
    cost <= max_tokens self ->
    cost <= tokens after_denial
            + (now' - now) * tokens_per_second self ->
    exists remaining : Q,
      fst (allow_request now' cost after_denial) = Return (true, remaining).
Proof.
  intros Hrate Hcall.
  destruct (allow_request_cases now cost self)
    as [[_ E] | [[Hlt [_ E]] | [_ [Hz _]]]]; [| | lra].
  { rewrite E in Hcall. discriminate. }
  rewrite E in Hcall. injection Hcall as <- <-.
  set (r := _refill_tokens now self) in *.
  split; [reflexivity |]. split; [| split; [reflexivity |]].
  - change (0 < (cost - tokens r) / tokens_per_second self).
    unfold Qdiv. apply Qmult_lt_0_compat; [lra |].
    apply Qinv_lt_0_compat. exact Hrate.
  - intros now' Hcap Hadded.
    eexists. rewrite allow_request_allowed; [reflexivity |].
    rewrite (proj2 (proj2 (proj2 (refill_fields now' r)))).
    apply min_glb; [exact Hcap | exact Hadded].
Qed.

Lemma C5_retry_after_denial_witness :
  exists remaining : Q,
    fst (allow_request 2 4 (mk 4 2 3 1)) = Return (true, remaining).
Proof.
  refine (proj2 (proj2 (proj2
            (C5_retry_after_denial 1 4 (1 # 2) (mk 4 2 1 0) (mk 4 2 3 1) _ _)))
            2 _ _).
  - reflexivity.
  - vm_compute. reflexivity.
  - discriminate.
  - vm_compute. discriminate.
Defined.

(** ** Refill after an idle period *)

(** C6, amended.  For every instance and every clock value the refill
    stores min(capacity, level + elapsed * rate), which is never above the
    capacity.  Whenever level + elapsed * rate reaches the capacity, the
    stored level is exactly the capacity and the call is allowed for every
    cost up to the capacity; this is the case, however depleted the bucket
    was (level >= 0), as soon as the tokens added, elapsed * rate, reach
    the capacity. *)
Theorem C6_refill_clamps (now : Q) (self : t) :
  let elapsed := now - last_refill self in
  let added := elapsed * tokens_per_second self in
  let full :=
    tokens (_refill_tokens now self) = max_tokens self /\
    forall cost : Q,
      cost <= max_tokens self ->
      allow_request now cost self
      = (Return (true, max_tokens self - cost),
         mk (max_tokens self) (tokens_per_second self)
            (max_tokens self - cost) now) in
  tokens (_refill_tokens now self)
  = Qmin (max_tokens self) (tokens self + added) /\
  tokens (_refill_tokens now self) <= max_tokens self /\
  (max_tokens self <= tokens self + added -> full) /\
  (0 <= tokens self -> max_tokens self <= added -> full).
Proof.
  intros elapsed added full.
  assert (Hfull : max_tokens self <= tokens self + added -> full).
  { intro Hreach.
    assert (E : tokens (_refill_tokens now self) = max_tokens self)
      by (cbn; apply min_left; exact Hreach).
    split; [exact E |].
    intros cost Hcost.
    rewrite allow_request_allowed by (rewrite E; exact Hcost).
    rewrite E. reflexivity. }
  split; [cbn; apply min_Qmin |].
  split; [cbn; apply min_le_l |].
  split; [exact Hfull |].
  intros Hlevel Hadded. apply Hfull. lra.
Qed.

Lemma C6_refill_clamps_witness :
  tokens (_refill_tokens 7 (mk 10 2 0 2)) = 10 /\
  allow_request 7 10 (mk 10 2 0 2)
  = (Return (true, 10 - 10), mk 10 2 (10 - 10) 7).
Proof.
  destruct (C6_refill_clamps 7 (mk 10 2 0 2)) as (_ & _ & _ & Hidle).
  destruct Hidle as [Hfull Hcall].
  - discriminate.
  - vm_compute. discriminate.
  - split; [exact Hfull | apply Hcall; discriminate].
Defined.

(** ** What a call changes *)

(** C7.  Every call stores the refilled level and the clock value it read.
    An allowed call then subtracts the cost from the level; a denied call,
    and a call that raises, leave the refilled instance as it is.
    [max_tokens] and [tokens_per_second] are never changed. *)
Theorem C7_frame (now cost : Q) (self : t) :
  let r := _refill_tokens now self in
  let s := snd (allow_request now cost self) in
  tokens r = min (max_tokens self)
                 (tokens self + (now - last_refill self) * tokens_per_second self) /\
  last_refill r = now /\
  max_tokens s = max_tokens self /\
  tokens_per_second s = tokens_per_second self /\
  last_refill s = now /\
  match allowed (fst (allow_request now cost self)) with
  | Some true => s = set_tokens r (tokens r - cost)
  | Some false => s = r
  | None => s = r
  end.
Proof.
  intros r s. subst r s.
  destruct (allow_request_config now cost self) as [Hm Hr].
  repeat split; try assumption.
  - apply allow_request_last_refill.
  - destruct (allow_request_cases now cost self)
      as [[_ E] | [[_ [_ E]] | [_ [_ E]]]]; rewrite E; reflexivity.
Qed.

(** ** A clock that goes back *)

(** C8, as claimed, fails: with a clock value below [last_refill] the call
    neither raises nor clamps the elapsed time, and the refill lowers the
    level, here below zero. *)
Lemma C8_negative_elapsed_lowers_level :
  let self := mk 10 1 5 10 in
  raises (fst (allow_request 3 1 self)) = false /\
  tokens (_refill_tokens 3 self) == -2 /\
  tokens (_refill_tokens 3 self) < tokens self /\
  ~ level_ok (_refill_tokens 3 self).
Proof.
  cbv zeta. repeat split; try (vm_compute; reflexivity).
  intros [H _]. revert H. vm_compute. intro H. apply H. reflexivity.
Qed.

(** C8, amended.  The refill has no check on the elapsed time and never
    raises.  When the clock value is not below [last_refill], which is what
    the monotonic clock gives, a refill at a rate that is not negative does
    not lower the level (up to the capacity) and does not move
    [last_refill] back.  When the clock value is below [last_refill], the
    elapsed time is used as it is: at a positive rate the level goes down
    by (last_refill - now) * rate. *)
Theorem C8_refill_clock (now : Q) (self : t) :
  tokens self <= max_tokens self ->
  (last_refill self <= now ->
   0 <= tokens_per_second self ->
   tokens self <= tokens (_refill_tokens now self) /\
   last_refill self <= last_refill (_refill_tokens now self)) /\
  (now < last_refill self ->
   0 < tokens_per_second self ->
   tokens (_refill_tokens now self)
   == tokens self - (last_refill self - now) * tokens_per_second self /\
   tokens (_refill_tokens now self) < tokens self).
Proof.
  intro Hcap. split.
  - intros Hclock Hrate. split.
    + apply (refill_bounds now self Hcap Hrate Hclock).
    + exact Hclock.
  - intros Hclock Hrate.
    assert (Hneg : (now - last_refill self) * tokens_per_second self < 0) by nra.
    cbn. rewrite min_right by lra.
    split; [ring | lra].
Qed.

Lemma C8_refill_clock_witness :
  (tokens (mk 10 1 5 10) <= tokens (_refill_tokens 12 (mk 10 1 5 10))) /\
  (tokens (_refill_tokens 3 (mk 10 1 5 10)) < tokens (mk 10 1 5 10)).
Proof.
  split.
  - apply (C8_refill_clock 12 (mk 10 1 5 10)); discriminate.
  - apply (C8_refill_clock 3 (mk 10 1 5 10)); try discriminate; reflexivity.
Defined.

(** ** Exceptions *)

(** C10.  On a bucket with a positive rate a call with a positive cost
    returns and raises nothing.  Construction accepts a rate of 0.  On
    every bucket with a rate of 0, fresh or used, whatever its level and
    the clock value, every call that takes the denied branch, the level
    after the refill being below the cost, raises [ZeroDivisionError] and
    leaves the refilled instance; a call that takes the allowed branch
    returns as on any bucket. *)
Theorem C10_zero_division :
  (forall (now cost : Q) (self : t),
      0 < tokens_per_second self ->
      0 < cost ->
      exists (flag : bool) (value : Q),
        fst (allow_request now cost self) = Return (flag, value)) /\
  (forall t0 capacity : Q,
      __init__ t0 capacity 0 = Return (mk capacity 0 capacity t0)) /\
  (forall (now cost : Q) (self : t),
      tokens_per_second self == 0 ->
      (tokens (_refill_tokens now self) < cost ->
       allow_request now cost self
       = (Raise ZeroDivisionError, _refill_tokens now self)) /\
      (cost <= tokens (_refill_tokens now self) ->
       fst (allow_request now cost self)
       = Return (true, tokens (_refill_tokens now self) - cost))).
Proof.
  split; [| split].
  - intros now cost self Hrate _.
    destruct (allow_request_cases now cost self)
      as [[_ E] | [[_ [_ E]] | [_ [Hz _]]]]; [| | lra];
      rewrite E; cbn [fst]; do 2 eexists; reflexivity.
  - reflexivity.
  - intros now cost self Hzero. split.
    + intro Hlt. apply allow_request_zero_rate; assumption.
    + intro Hle. rewrite allow_request_allowed by exact Hle. reflexivity.
Qed.

Lemma C10_zero_division_witness :
  (exists (flag : bool) (value : Q),
      fst (allow_request 1 1 (mk 10 5 10 0)) = Return (flag, value)) /\
  allow_request 0 11 (mk 10 0 10 0)
  = (Raise ZeroDivisionError, _refill_tokens 0 (mk 10 0 10 0)) /\
  allow_request 9 1 (snd (allow_request 5 10 (mk 10 0 10 0)))
  = (Raise ZeroDivisionError,
     _refill_tokens 9 (snd (allow_request 5 10 (mk 10 0 10 0)))).
Proof.
  destruct C10_zero_division as (Hpos & _ & Hzero).
  split; [| split].
  - apply Hpos; reflexivity.
  - apply (proj1 (Hzero 0 11 (mk 10 0 10 0) (Qeq_refl 0))).
    vm_compute. reflexivity.
  - apply (proj1 (Hzero 9 1 (snd (allow_request 5 10 (mk 10 0 10 0)))
                        (Qeq_refl 0))).
    vm_compute. reflexivity.
Defined.

(** ** Concurrent callers: the calls take effect one at a time *)

Lemma calls_of_app (tr1 tr2 : list event) :
  calls_of (tr1 ++ tr2) = calls_of tr1 ++ calls_of tr2.
Proof.
  induction tr1 as [| [n c r | d] tr1 IH]; cbn; [| rewrite IH |]; auto.
Qed.

Lemma outcomes_of_app (tr1 tr2 : list event) :
  outcomes_of (tr1 ++ tr2) = outcomes_of tr1 ++ outcomes_of tr2.
Proof.
  induction tr1 as [| [n c r | d] tr1 IH]; cbn; [| rewrite IH |]; auto.
Qed.

Lemma frozen_app (tr1 tr2 : list event) :
  frozen (tr1 ++ tr2) = frozen tr1 && frozen tr2.
Proof.
  induction tr1 as [| [n c r | d] tr1 IH]; cbn; auto.
Qed.

Lemma after_calls_app (calls1 calls2 : list (Q * Q)) (self : t) :
  after_calls (calls1 ++ calls2) self
  = after_calls calls2 (after_calls calls1 self).
Proof.
  revert self. induction calls1 as [| [n c] calls1 IH]; intro self; cbn; auto.
Qed.

Lemma run_app (calls1 calls2 : list (Q * Q)) (self : t) :
  run (calls1 ++ calls2) self
  = run calls1 self ++ run calls2 (after_calls calls1 self).
Proof.
  revert self. induction calls1 as [| [n c] calls1 IH]; intro self; cbn.
  - reflexivity.
  - rewrite IH. reflexivity.
Qed.

Lemma in_progress_in_block (base : t) (th : thread) (self : t) :
  in_progress base th self -> in_block th = true.
Proof.
  unfold in_progress, in_block. destruct (at_line th); auto.
Qed.

Lemma idle_split (l1' l2' : list thread) (x' : thread) :
  Forall idle l1' -> Forall idle l2' ->
  forall (l1 l2 : list thread) (x : thread),
    in_block x = true ->
    l1 ++ x :: l2 = l1' ++ x' :: l2' ->
    l1 = l1' /\ x = x' /\ l2 = l2'.
Proof.
  intros H1 H2. induction H1 as [| a l1' Ha H1 IH]; intros l1 l2 x Hx E.
  - destruct l1 as [| b l1]; cbn in E; injection E as -> E.
    + auto.
    + subst l2'. apply Forall_app in H2 as [_ H2].
      inversion H2 as [| ? ? Hidle _]; subst.
      unfold idle in Hidle. congruence.
  - destruct l1 as [| b l1]; cbn in E; injection E as -> E.
    + unfold idle in Ha. congruence.
    + destruct (IH l1 l2 x Hx E) as [-> [-> ->]]. auto.
Qed.

(** Case analysis on the line a thread has run. *)
Ltac thread_cases H :=
  unfold thread_step in H;
  repeat match type of H with
    | context [match ?x with _ => _ end] => destruct x eqn:?
    end;
  try discriminate H;
  injection H as <- <- <- <-.

Lemma idle_waits (clk : Q) (self : t) (th : thread) :
  idle th -> thread_step clk self true th = None.
Proof.
  unfold idle, in_block, thread_step.
  destruct (at_line th); try discriminate.
  destruct (todo th); reflexivity.
Qed.

Lemma idle_at_line (th : thread) : idle th <-> at_line th = Idle.
Proof.
  unfold idle, in_block. destruct (at_line th); split; congruence.
Qed.

Lemma linearized_silent (self0 : t) (tr : list event)
      (before behind : list thread) (th' : thread) (self' : t) (clk : Q) :
  outcomes_of tr = map outcome (run (calls_of tr) self0) ->
  Forall idle before -> Forall idle behind ->
  in_progress (after_calls (calls_of tr) self0) th' self' ->
  linearized self0 (tr ++ [])
             (mkSystem self' true clk (before ++ th' :: behind)).
Proof.
  intros Hout Hb Hbh Hp. rewrite app_nil_r.
  split; [exact Hout |]. cbn [lock threads bucket].
  exists before, th', behind. auto.
Qed.

Lemma linearized_return (self0 : t) (tr : list event)
      (before behind : list thread) (th' : thread) (self' : t) (clk : Q)
      (n c : Q) (r : result (bool * Q)) :
  outcomes_of tr = map outcome (run (calls_of tr) self0) ->
  Forall idle before -> Forall idle behind ->
  at_line th' = Idle ->
  allow_request n c (after_calls (calls_of tr) self0) = (r, self') ->
  linearized self0 (tr ++ [Returned n c r])
             (mkSystem self' false clk (before ++ th' :: behind)).
Proof.
  intros Hout Hb Hbh Hidle Hcall.
  split; cbn [lock threads bucket].
  - rewrite outcomes_of_app, calls_of_app, run_app, map_app, <- Hout.
    cbn. rewrite Hcall. reflexivity.
  - split.
    + apply Forall_app. split; [exact Hb |].
      constructor; [apply idle_at_line; exact Hidle | exact Hbh].
    + rewrite calls_of_app, after_calls_app. cbn. rewrite Hcall. reflexivity.
Qed.

(** Every step keeps the system linearized. *)
Lemma linearized_step (self0 : t) (tr evs : list event) (s s' : system) :
  linearized self0 tr s -> step s evs s' -> linearized self0 (tr ++ evs) s'.
Proof.
  intros [Hout Hst] Hstep.
  destruct Hstep as [before th behind self lk clk self' lk' th' evs Hth
                    | self lk clk d ths Hd];
    cbn [lock threads bucket] in Hst.
  - destruct lk.
    + destruct Hst as (before0 & th0 & behind0 & E & Hb & Hbh & Hp).
      assert (Hin : in_block th = true).
      { destruct (in_block th) eqn:I; [reflexivity |].
        rewrite (idle_waits clk self th I) in Hth. discriminate. }
      destruct (idle_split before0 behind0 th0 Hb Hbh before behind th Hin E)
        as [-> [-> ->]].
      clear E Hin.
      unfold in_progress in Hp. unfold thread_step in Hth.
      destruct (at_line th0) eqn:L.
      * contradiction.
      * injection Hth as <- <- <- <-.
        apply linearized_silent; auto.
      * injection Hth as <- <- <- <-.
        apply linearized_silent; auto.
        unfold in_progress. cbn. subst self. auto.
      * destruct Hp as [-> Hel].
        injection Hth as <- <- <- <-.
        apply linearized_silent; auto.
        unfold in_progress. cbn. rewrite Hel. auto.
      * destruct Hp as [-> Hadd].
        injection Hth as <- <- <- <-.
        apply linearized_silent; auto.
        unfold in_progress. cbn. rewrite Hadd. reflexivity.
      * injection Hth as <- <- <- <-.
        apply linearized_silent; auto.
        unfold in_progress. cbn. subst self. reflexivity.
      * destruct (ge (tokens self) (cost th0)) eqn:G;
          injection Hth as <- <- <- <-;
          apply linearized_silent; auto;
          unfold in_progress; cbn; auto.
      * destruct Hp as [Hr G].
        injection Hth as <- <- <- <-.
        apply linearized_silent; auto.
        unfold in_progress. cbn [at_line goto now cost].
        unfold allow_request. cbv zeta. rewrite <- Hr, G. reflexivity.
      * injection Hth as <- <- <- <-.
        apply linearized_return; auto.
      * destruct Hp as [Hr G].
        destruct (truediv _ _) as [w | e] eqn:D;
          injection Hth as <- <- <- <-.
        -- apply linearized_silent; auto.
           unfold in_progress. cbn [at_line goto now cost wait_time].
           unfold allow_request. cbv zeta. rewrite <- Hr, G, D. reflexivity.
        -- apply linearized_return; auto.
           unfold allow_request. cbv zeta.
           rewrite <- Hr, G, D. reflexivity.
      * injection Hth as <- <- <- <-.
        apply linearized_return; auto.
    + destruct Hst as [Hidle Hbucket].
      pose proof Hidle as Hall.
      apply Forall_app in Hidle as [Hb Hrest].
      inversion Hrest as [| ? ? Hi Hbh]; subst.
      apply idle_at_line in Hi.
      unfold thread_step in Hth. rewrite Hi in Hth.
      destruct (todo th) as [| c rest]; [discriminate |].
      injection Hth as <- <- <- <-.
      apply linearized_silent; auto.
      unfold in_progress. cbn. reflexivity.
  - split.
    + rewrite outcomes_of_app, calls_of_app. cbn. rewrite !app_nil_r.
      exact Hout.
    + cbn [lock threads bucket]. rewrite calls_of_app. cbn.
      rewrite app_nil_r. exact Hst.
Qed.

Lemma linearized_spawn (self0 : t) (clk : Q) (programs : list (list Q)) :
  linearized self0 [] (spawn self0 clk programs).
Proof.
  split; [reflexivity |]. cbn. split; [| reflexivity].
  apply Forall_map. apply Forall_forall. intros costs _. reflexivity.
Qed.

Lemma linearized_steps (self0 : t) (clk : Q) (programs : list (list Q))
      (tr : list event) (s : system) :
  steps (spawn self0 clk programs) tr s -> linearized self0 tr s.
Proof.
  induction 1 as [| tr s evs s' _ IH Hstep].
  - apply linearized_spawn.
  - eapply linearized_step; eauto.
Qed.

(** Mutual exclusion: a held lock has exactly one thread in the block, a
    free lock none. *)
Lemma linearized_holders (self0 : t) (tr : list event) (s : system) :
  linearized self0 tr s ->
  holders (threads s) = if lock s then 1%nat else 0%nat.
Proof.
  assert (Hnone : forall l, Forall idle l -> filter in_block l = []).
  { induction 1 as [| th l Hth _ IH]; [reflexivity |].
    cbn. rewrite Hth. exact IH. }
  intros [_ Hst]. unfold holders. destruct (lock s).
  - destruct Hst as (before & th & behind & -> & Hb & Hbh & Hp).
    rewrite filter_app. cbn.
    rewrite (in_progress_in_block _ _ _ Hp), (Hnone _ Hb), (Hnone _ Hbh).
    reflexivity.
  - destruct Hst as [Hidle _]. rewrite (Hnone _ Hidle). reflexivity.
Qed.

(** ** Concurrent callers: a frozen clock and one cost *)

(** With the clock frozen and a level that is a whole number n, calls of
    cost 1 made one after the other are allowed n times, then denied. *)
Lemma frozen_unit_calls (clk : Q) (k : nat) :
  forall (n : nat) (self : t),
    tokens self == inject_Z (Z.of_nat n) ->
    tokens self <= max_tokens self ->
    last_refill self == clk ->
    ~ tokens_per_second self == 0 ->
    length (filter is_allowed (map outcome (run (repeat (clk, 1) k) self)))
    = Nat.min k n.
Proof.
  induction k as [| k IH]; intros n self Hn Hcap Hclock Hrate.
  - reflexivity.
  - pose proof (refill_zero_elapsed clk self Hclock Hcap) as Hr.
    cbn [repeat run map].
    destruct n as [| n].
    + change (inject_Z (Z.of_nat 0)) with 0 in Hn.
      rewrite allow_request_denied by (assumption || lra).
      cbn [fst snd outcome filter is_allowed].
      rewrite (IH 0%nat); [now rewrite !Nat.min_0_r | | | reflexivity | assumption].
      * rewrite Hr, Hn. reflexivity.
      * change (max_tokens (_refill_tokens clk self)) with (max_tokens self).
        lra.
    + rewrite inject_Z_succ in Hn.
      assert (Hk : 0 <= inject_Z (Z.of_nat n))
        by (change 0 with (inject_Z 0); rewrite <- Zle_Qle; lia).
      rewrite allow_request_allowed by lra.
      cbn [fst snd outcome filter is_allowed length].
      rewrite (IH n); [reflexivity | | | reflexivity | assumption].
      * change (tokens (_refill_tokens clk self) - 1 == inject_Z (Z.of_nat n)).
        lra.
      * change (tokens (_refill_tokens clk self) - 1 <= max_tokens self).
        lra.
Qed.

(** A full bucket does not depend on how long ago it was refilled. *)
Lemma refill_full (now : Q) (self : t) :
  tokens self == max_tokens self ->
  0 <= tokens_per_second self ->
  last_refill self <= now ->
  _refill_tokens now self
  = mk (max_tokens self) (tokens_per_second self) (max_tokens self) now.
Proof.
  intros Hfull Hrate Hclock. unfold _refill_tokens. cbn.
  rewrite min_left; [reflexivity |].
  assert (0 <= (now - last_refill self) * tokens_per_second self)
    by (apply Qmult_le_0_compat; lra).
  lra.
Qed.

Lemma frozen_unit_calls_full (clk : Q) (k n : nat) (self : t) :
  tokens self == max_tokens self ->
  max_tokens self == inject_Z (Z.of_nat n) ->
  0 < tokens_per_second self ->
  last_refill self <= clk ->
  length (filter is_allowed (map outcome (run (repeat (clk, 1) k) self)))
  = Nat.min k n.
Proof.
  intros Hfull Hn Hrate Hclock.
  set (self' := mk (max_tokens self) (tokens_per_second self)
                   (max_tokens self) clk).
  assert (E : run (repeat (clk, 1) k) self = run (repeat (clk, 1) k) self').
  { destruct k as [| k]; [reflexivity |].
    assert (Hr : _refill_tokens clk self = _refill_tokens clk self').
    { rewrite !refill_full; try reflexivity; cbn; lra. }
    cbn [repeat run]. unfold allow_request. rewrite Hr. reflexivity. }
  rewrite E. apply frozen_unit_calls; cbn; lra.
Qed.

Lemma thread_step_uniform (clk0 c0 : Q) (self : t) (lk : bool) (th : thread)
      (self' : t) (lk' : bool) (th' : thread) (evs : list event) :
  thread_uniform clk0 c0 th ->
  thread_step clk0 self lk th = Some (self', lk', th', evs) ->
  thread_uniform clk0 c0 th' /\
  Forall (fun call => (clk0, c0) = call) (calls_of evs).
Proof.
  unfold thread_uniform, thread_step. intros [Htodo Hline] Hth.
  destruct (at_line th) eqn:L.
  1: { destruct (todo th) as [| c rest]; [discriminate |].
       destruct lk; [discriminate |].
       injection Hth as <- <- <- <-. cbn.
       inversion Htodo; subst. auto. }
  1: { injection Hth as <- <- <- <-. cbn. auto. }
  all: repeat match type of Hth with
         | context [match ?x with _ => _ end] => destruct x eqn:?
         end;
       injection Hth as <- <- <- <-; cbn;
       try destruct Hline as [-> ->];
       repeat split; auto.
Qed.

Lemma uniform_steps (clk0 c0 : Q) (self0 : t) (programs : list (list Q))
      (tr : list event) (s : system) :
  Forall (Forall (fun c => c = c0)) programs ->
  steps (spawn self0 clk0 programs) tr s ->
  frozen tr = true ->
  uniform clk0 c0 tr s.
Proof.
  intros Hprog Hsteps.
  induction Hsteps as [| tr s evs s' _ IH Hstep]; intro Hfrozen.
  - repeat split; cbn; [| constructor].
    apply Forall_map.
    apply (Forall_impl _ (P := Forall (fun c => c = c0))); [| exact Hprog].
    intros costs Hc. split; [exact Hc | exact I].
  - rewrite frozen_app in Hfrozen. apply andb_true_iff in Hfrozen as [Htr Hevs].
    destruct (IH Htr) as (Hclk & Hths & Hcalls).
    destruct Hstep as [before th behind self lk clk self' lk' th' evs Hth
                      | self lk clk d ths Hd]; [| discriminate].
    cbn [clock threads] in *. subst clk.
    apply Forall_app in Hths as [Hb Hrest].
    inversion Hrest as [| ? ? Hu Hbh]; subst.
    destruct (thread_step_uniform _ _ _ _ _ _ _ _ _ Hu Hth) as [Hu' Hevs'].
    repeat split; cbn [clock threads].
    + apply Forall_app. split; [exact Hb | constructor; assumption].
    + rewrite calls_of_app. apply Forall_app. split; assumption.
Qed.

(** ** Concurrent callers: every call that is started ends *)

Lemma pending_all_app (l1 l2 : list thread) :
  pending_all (l1 ++ l2) = (pending_all l1 + pending_all l2)%nat.
Proof. unfold pending_all. rewrite map_app, list_sum_app. reflexivity. Qed.

(** The configuration of the instance is never written. *)
Lemma thread_step_config (clk : Q) (self : t) (lk : bool) (th : thread)
      (self' : t) (lk' : bool) (th' : thread) (evs : list event) :
  thread_step clk self lk th = Some (self', lk', th', evs) ->
  max_tokens self' = max_tokens self /\
  tokens_per_second self' = tokens_per_second self.
Proof.
  intro Hth. thread_cases Hth; split; reflexivity.
Qed.

(** At a rate that is not zero, a line either ends the call of its thread
    and reports it, or leaves the pending calls as they are. *)
Lemma thread_step_pending (clk : Q) (self : t) (lk : bool) (th : thread)
      (self' : t) (lk' : bool) (th' : thread) (evs : list event) :
  ~ tokens_per_second self == 0 ->
  thread_step clk self lk th = Some (self', lk', th', evs) ->
  (length (calls_of evs) + pending th' = pending th)%nat.
Proof.
  intros Hrate Hth. unfold pending, in_block.
  unfold thread_step in Hth.
  destruct (at_line th) eqn:L.
  10: { rewrite truediv_nonzero in Hth by exact Hrate.
        injection Hth as <- <- <- <-. cbn. lia. }
  all: repeat match type of Hth with
         | context [match ?x with _ => _ end] => destruct x eqn:?
         end;
       try discriminate Hth;
       injection Hth as <- <- <- <-; cbn; lia.
Qed.

Lemma pending_steps (self0 : t) (clk0 : Q) (programs : list (list Q))
      (tr : list event) (s : system) :
  ~ tokens_per_second self0 == 0 ->
  steps (spawn self0 clk0 programs) tr s ->
  tokens_per_second (bucket s) = tokens_per_second self0 /\
  (length (calls_of tr) + pending_all (threads s)
   = length (concat programs))%nat.
Proof.
  intros Hrate Hsteps.
  induction Hsteps as [| tr s evs s' _ [IHr IHn] Hstep].
  - split; [reflexivity |]. cbn.
    induction programs as [| costs programs IH]; [reflexivity |].
    cbn. rewrite length_app. unfold pending_all in IH. rewrite IH.
    unfold pending. cbn. lia.
  - destruct Hstep as [before th behind self lk clk self' lk' th' evs Hth
                      | self lk clk d ths Hd];
      cbn [bucket threads] in *.
    + split.
      * rewrite (proj2 (thread_step_config _ _ _ _ _ _ _ _ Hth)). exact IHr.
      * rewrite <- IHr in Hrate.
        pose proof (thread_step_pending _ _ _ _ _ _ _ _ Hrate Hth) as Hp.
        rewrite calls_of_app, length_app.
        rewrite pending_all_app in *.
        change (pending_all (th' :: behind))
          with (pending th' + pending_all behind)%nat.
        change (pending_all (th :: behind))
          with (pending th + pending_all behind)%nat in IHn.
        lia.
    + split; [exact IHr |].
      rewrite calls_of_app, length_app. cbn. lia.
Qed.

Lemma finished_pending (s : system) :
  finished s -> pending_all (threads s) = 0%nat.
Proof.
  unfold finished, pending_all.
  induction 1 as [| th l [Hline Htodo] _ IH]; [reflexivity |].
  change (list_sum (map pending (th :: l)))
    with (pending th + list_sum (map pending l))%nat.
  rewrite IH. unfold pending, in_block. rewrite Hline, Htodo. reflexivity.
Qed.

Lemma work_all_app (l1 l2 : list thread) :
  work_all (l1 ++ l2) = (work_all l1 + work_all l2)%nat.
Proof. unfold work_all. rewrite map_app, list_sum_app. reflexivity. Qed.

Lemma thread_step_work (clk : Q) (self : t) (lk : bool) (th : thread)
      (self' : t) (lk' : bool) (th' : thread) (evs : list event) :
  thread_step clk self lk th = Some (self', lk', th', evs) ->
  (work th' < work th)%nat /\ frozen evs = true.
Proof.
  intro Hth. unfold work.
  thread_cases Hth;
    repeat match goal with
      | H : at_line _ = _ |- _ => rewrite H
      | H : todo _ = _ |- _ => rewrite H
      end;
    cbn; split; (lia || reflexivity).
Qed.

(** Inside the block a thread can always run its line. *)
Lemma thread_step_in_block (clk : Q) (self : t) (lk : bool) (th : thread) :
  in_block th = true ->
  exists self' lk' th' evs,
    thread_step clk self lk th = Some (self', lk', th', evs).
Proof.
  unfold in_block, thread_step. intro Hin.
  destruct (at_line th); try discriminate;
    repeat match goal with
      | |- context [match ?x with _ => _ end] => destruct x
      end;
    do 4 eexists; reflexivity.
Qed.

(** Idle threads: all of them are done, or one of them has a call to
    make. *)
Lemma idle_threads_cases (ths : list thread) :
  Forall idle ths ->
  Forall (fun th => at_line th = Idle /\ todo th = []) ths \/
  exists before th behind c rest,
    ths = before ++ th :: behind /\ at_line th = Idle /\ todo th = c :: rest.
Proof.
  induction 1 as [| th l Hth _ [IH | IH]].
  - left. constructor.
  - apply idle_at_line in Hth.
    destruct (todo th) as [| c rest] eqn:T.
    + left. constructor; auto.
    + right. exists [], th, l, c, rest. auto.
  - right. destruct IH as (before & x & behind & c & rest & -> & Hx & Ht).
    exists (th :: before), x, behind, c, rest. auto.
Qed.

(** A system that is not finished has a thread that can run, and running
    it leaves less work. *)
Lemma linearized_progress (self0 : t) (tr : list event) (s : system) :
  linearized self0 tr s ->
  finished s \/
  exists evs s',
    step s evs s' /\ frozen evs = true /\
    (work_all (threads s') < work_all (threads s))%nat.
Proof.
  intros [_ Hst]. destruct s as [self lk clk ths]. cbn [lock threads bucket] in *.
  assert (Hrun : forall before th behind self' lk' th' evs,
             ths = before ++ th :: behind ->
             thread_step clk self lk th = Some (self', lk', th', evs) ->
             exists evs s',
               step (mkSystem self lk clk ths) evs s' /\ frozen evs = true /\
               (work_all (threads s') < work_all ths)%nat).
  { intros before th behind self' lk' th' evs -> Hth.
    exists evs, (mkSystem self' lk' clk (before ++ th' :: behind)).
    destruct (thread_step_work _ _ _ _ _ _ _ _ Hth) as [Hw Hf].
    split; [constructor; exact Hth |]. split; [exact Hf |].
    cbn [threads]. rewrite !work_all_app.
    change (work_all (th' :: behind)) with (work th' + work_all behind)%nat.
    change (work_all (th :: behind)) with (work th + work_all behind)%nat.
    lia. }
  destruct lk.
  - right. destruct Hst as (before & th & behind & E & _ & _ & Hp).
    apply in_progress_in_block in Hp.
    destruct (thread_step_in_block clk self true th Hp)
      as (self' & lk' & th' & evs & Hth).
    eapply Hrun; eauto.
  - destruct Hst as [Hidle _].
    destruct (idle_threads_cases ths Hidle)
      as [Hdone | (before & th & behind & c & rest & E & Hline & Htodo)].
    + left. exact Hdone.
    + right. eapply (Hrun before th behind); [exact E |].
      unfold thread_step. rewrite Hline, Htodo. reflexivity.
Qed.

(** Every execution extends, with the clock left alone, to one in which
    all threads have made all their calls. *)
Lemma steps_complete (self0 : t) (clk0 : Q) (programs : list (list Q)) :
  forall (n : nat) (tr : list event) (s : system),
    (work_all (threads s) < n)%nat ->
    steps (spawn self0 clk0 programs) tr s ->
    exists tr' s',
      steps (spawn self0 clk0 programs) (tr ++ tr') s' /\
      frozen tr' = true /\ finished s'.
Proof.
  induction n as [| n IH]; intros tr s Hn Hsteps; [lia |].
  destruct (linearized_progress self0 tr s (linearized_steps _ _ _ _ _ Hsteps))
    as [Hdone | (evs & s1 & Hstep & Hf & Hw)].
  - exists [], s. rewrite app_nil_r. auto.
  - destruct (IH (tr ++ evs) s1) as (tr' & s' & Hsteps' & Hf' & Hdone).
    + lia.
    + econstructor; eassumption.
    + exists (evs ++ tr'), s'. rewrite app_assoc. repeat split; auto.
      rewrite frozen_app, Hf, Hf'. reflexivity.
Qed.

(** ** Concurrent callers: schedules *)

Lemma steps_front (s s1 s2 : system) (evs tr : list event) :
  step s evs s1 -> steps s1 tr s2 -> steps s (evs ++ tr) s2.
Proof.
  intros Hstep Hsteps.
  induction Hsteps as [| tr s2 evs' s3 _ IH Hstep'].
  - rewrite app_nil_r. apply (steps_snoc s [] s evs s1); [constructor | exact Hstep].
  - rewrite app_assoc. econstructor; eassumption.
Qed.

Lemma nth_error_replace {A : Type} (l : list A) :
  forall (i : nat) (x y : A),
    nth_error l i = Some x ->
    l = firstn i l ++ x :: skipn (S i) l /\
    replace_nth i y l = firstn i l ++ y :: skipn (S i) l.
Proof.
  induction l as [| a l IH]; intros [| i] x y H; try discriminate.
  - injection H as ->. split; reflexivity.
  - destruct (IH i x y H) as [E1 E2].
    cbn [firstn skipn replace_nth app].
    rewrite E2. split; [f_equal; exact E1 | reflexivity].
Qed.

(** A schedule that runs through is an execution. *)
Lemma schedule_sound (order : list nat) :
  forall (s : system) (tr : list event) (s' : system),
    schedule order s = Some (tr, s') -> steps s tr s'.
Proof.
  induction order as [| i order IH]; intros s tr s' H; cbn [schedule] in H.
  - injection H as <- <-. constructor.
  - destruct (nth_error (threads s) i) as [th |] eqn:N; [| discriminate].
    destruct (thread_step (clock s) (bucket s) (lock s) th)
      as [[[[self' lk'] th'] evs] |] eqn:T; [| discriminate].
    destruct (schedule order _) as [[tr1 s1] |] eqn:R; [| discriminate].
    injection H as <- <-.
    apply IH in R.
    destruct (nth_error_replace (threads s) i th th' N) as [E1 E2].
    rewrite E2 in R.
    apply steps_front with (2 := R).
    destruct s as [self lk clk ths]. cbn [threads clock bucket lock] in *.
    rewrite E1 at 1. constructor. exact T.
Qed.

(** C9.  Threads that call [allow_request] on one instance, interleaved
    line by line in any way: at most one thread is inside the [with] block,
    exactly one when the lock is held; the outcomes of the calls that
    ended are those of the same calls made one after the other, and with
    the lock free the instance is the one these calls leave, so no refill
    is seen without its debit decision.  With the clock frozen, all costs
    equal to 1 and a full bucket of whole capacity C, the number of
    allowed calls is min(calls ended, C): never more than C, and exactly C
    once all threads are done, if they made at least C calls.  Every
    execution can be continued until all threads are done. *)
Theorem C9_concurrent_calls
    (self : t) (clk : Q) (programs : list (list Q)) (capacity : nat)
    (tr : list event) (s : system) :
  0 < tokens_per_second self ->
  tokens self == max_tokens self ->
  max_tokens self == inject_Z (Z.of_nat capacity) ->
  last_refill self <= clk ->
  Forall (Forall (fun c => c = 1)) programs ->
  steps (spawn self clk programs) tr s ->
  holders (threads s) = (if lock s then 1%nat else 0%nat) /\
  outcomes_of tr = map outcome (run (calls_of tr) self) /\
  (lock s = false -> bucket s = after_calls (calls_of tr) self) /\
  (frozen tr = true ->
   admitted tr = Nat.min (length (calls_of tr)) capacity /\
   (admitted tr <= capacity)%nat /\
   (finished s ->
    admitted tr = Nat.min (length (concat programs)) capacity /\
    ((capacity <= length (concat programs))%nat -> admitted tr = capacity))) /\
  exists tr' s',
    steps (spawn self clk programs) (tr ++ tr') s' /\
    frozen tr' = true /\ finished s'.
Proof.
  intros Hrate Hfull Hcap Hclock Hcosts Hsteps.
  pose proof (linearized_steps _ _ _ _ _ Hsteps) as Hlin.
  split; [exact (linearized_holders _ _ _ Hlin) |].
  destruct Hlin as [Hout Hst].
  split; [exact Hout |].
  split.
  { intro Hfree. rewrite Hfree in Hst. exact (proj2 Hst). }
  split.
  - intro Hfrozen.
    destruct (uniform_steps clk 1 self programs tr s Hcosts Hsteps Hfrozen)
      as (_ & _ & Hcalls).
    apply Forall_eq_repeat in Hcalls.
    assert (Hadm : admitted tr = Nat.min (length (calls_of tr)) capacity).
    { unfold admitted. rewrite Hout, Hcalls at 1.
      apply frozen_unit_calls_full; assumption. }
    split; [exact Hadm |]. split; [lia |].
    intro Hdone.
    assert (Hrate' : ~ tokens_per_second self == 0) by lra.
    destruct (pending_steps self clk programs tr s Hrate' Hsteps) as [_ Hn].
    rewrite (finished_pending s Hdone) in Hn.
    split; lia.
  - apply (steps_complete self clk programs (S (work_all (threads s))) tr s);
      [lia | exact Hsteps].
Qed.

Lemma C9_concurrent_calls_witness :
  exists (tr : list event) (s : system),
    schedule [1; 1; 1; 1; 1; 1; 1; 1; 1; 0; 0; 0; 0; 0; 0; 0; 0; 0]%nat
             (spawn (mk 1 1 1 0) 0 [[1]; [1]])
    = Some (tr, s) /\
    finished s /\ admitted tr = 1%nat.
Proof.
  destruct (schedule [1; 1; 1; 1; 1; 1; 1; 1; 1; 0; 0; 0; 0; 0; 0; 0; 0; 0]%nat
                     (spawn (mk 1 1 1 0) 0 [[1]; [1]]))
    as [[tr s] |] eqn:E; [| vm_compute in E; discriminate E].
  exists tr, s. split; [reflexivity |].
  pose proof (schedule_sound _ _ _ _ E) as Hsteps.
  assert (Hdone : finished s /\ frozen tr = true).
  { vm_compute in E. injection E as <- <-.
    split; [repeat constructor | reflexivity]. }
  destruct Hdone as [Hdone Hfrozen].
  split; [exact Hdone |].
  destruct (C9_concurrent_calls (mk 1 1 1 0) 0 [[1]; [1]] 1 tr s)
    as (_ & _ & _ & Hcount & _).
  - reflexivity.
  - reflexivity.
  - reflexivity.
  - discriminate.
  - repeat constructor.
  - exact Hsteps.
  - destruct (Hcount Hfrozen) as (_ & _ & Hfin).
    destruct (Hfin Hdone) as [_ Hexact].
    apply Hexact. cbn. lia.
Defined.

(** ** Further properties of single calls *)

Lemma refill_le_capacity (now : Q) (self : t) :
  tokens (_refill_tokens now self) <= max_tokens self.
Proof. cbn. apply min_le_l. Qed.

(** X1.  A cost above the capacity is never allowed, whatever the level and
    the clock; at a positive rate the call is denied with a wait of at
    least (cost - capacity) / rate, which is positive. *)
Theorem X1_cost_above_capacity_denied (now cost : Q) (self : t) :
  max_tokens self < cost ->
  allowed (fst (allow_request now cost self)) <> Some true /\
  snd (allow_request now cost self) = _refill_tokens now self /\
  (0 < tokens_per_second self ->
   exists wait : Q,
     fst (allow_request now cost self) = Return (false, wait) /\
     0 < wait /\
     (cost - max_tokens self) / tokens_per_second self <= wait).
Proof.
  intro Hcost.
  pose proof (refill_le_capacity now self) as Hcap.
  assert (Hlt : tokens (_refill_tokens now self) < cost) by lra.
  destruct (Qeq_dec (tokens_per_second self) 0) as [Hz | Hnz].
  - rewrite allow_request_zero_rate by assumption.
    repeat split; [discriminate | lra].
  - rewrite allow_request_denied by assumption.
    repeat split; [discriminate |].
    intro Hrate. eexists. split; [reflexivity |].
    assert (Hinv : 0 < / tokens_per_second self)
      by (apply Qinv_lt_0_compat; exact Hrate).
    unfold Qdiv. split.
    + apply Qmult_lt_0_compat; lra.
    + apply Qmult_le_compat_r; lra.
Qed.

Lemma X1_cost_above_capacity_denied_witness :
  allowed (fst (allow_request 100 31 (mk 30 10 30 0))) <> Some true.
Proof.
  apply (X1_cost_above_capacity_denied 100 31 (mk 30 10 30 0)).
  reflexivity.
Defined.

(** X3.  On a bucket whose level after the refill is not negative, the
    wait returned by a denied call is at most cost / rate; for a cost up to
    the capacity it is at most capacity / rate. *)
Theorem X3_wait_bounded (now cost wait : Q) (self after_denial : t) :
  0 < tokens_per_second self ->
  0 <= tokens (_refill_tokens now self) ->
  allow_request now cost self = (Return (false, wait), after_denial) ->
  wait <= cost / tokens_per_second self /\
  (cost <= max_tokens self ->
   wait <= max_tokens self / tokens_per_second self).
Proof.
  intros Hrate Hlevel Hcall.
  destruct (allow_request_cases now cost self)
    as [[_ E] | [[Hlt [Hnz E]] | [_ [Hz _]]]]; [| | lra].
  { rewrite E in Hcall. discriminate. }
  rewrite E in Hcall. injection Hcall as <- <-.
  assert (Hinv : 0 < / tokens_per_second self)
    by (apply Qinv_lt_0_compat; exact Hrate).
  set (r := _refill_tokens now self) in *.
  change ((cost - tokens r) / tokens_per_second self
          <= cost / tokens_per_second self /\
          (cost <= max_tokens self ->
           (cost - tokens r) / tokens_per_second self
           <= max_tokens self / tokens_per_second self)).
  unfold Qdiv. split.
  - apply Qmult_le_compat_r; lra.
  - intro Hcap. apply Qmult_le_compat_r; lra.
Qed.

Lemma X3_wait_bounded_witness :
  (1 # 2) <= 4 / tokens_per_second (mk 4 2 1 0).
Proof.
  refine (proj1 (X3_wait_bounded 1 4 (1 # 2) (mk 4 2 1 0) (mk 4 2 3 1) _ _ _)).
  - reflexivity.
  - vm_compute. discriminate.
  - vm_compute. reflexivity.
Defined.

(** ** How calls compose *)

(** X5.  Waiting and asking for less never hurt: at a rate that is not
    negative, a call that is allowed would also be allowed at any later
    clock value and for any smaller cost. *)
Theorem X5_allowed_monotone (now now' cost cost' : Q) (self : t) :
  0 <= tokens_per_second self ->
  now <= now' ->
  cost' <= cost ->
  allowed (fst (allow_request now cost self)) = Some true ->
  allowed (fst (allow_request now' cost' self)) = Some true.
Proof.
  intros Hrate Hnow Hcost Hcall.
  destruct (allow_request_cases now cost self)
    as [[Hle _] | [[_ [_ E]] | [_ [_ E]]]];
    [| rewrite E in Hcall; discriminate | rewrite E in Hcall; discriminate].
  rewrite allow_request_allowed; [reflexivity |].
  assert (Hmono : tokens (_refill_tokens now self)
                  <= tokens (_refill_tokens now' self)).
  { cbn. apply min_glb; [apply min_le_l |].
    pose proof (min_le_r (max_tokens self)
                  (tokens self
                   + (now - last_refill self) * tokens_per_second self)).
    assert (0 <= (now' - now) * tokens_per_second self)
      by (apply Qmult_le_0_compat; lra).
    lra. }
  lra.
Qed.

Lemma X5_allowed_monotone_witness :
  allowed (fst (allow_request 5 1 (mk 4 2 1 0))) = Some true.
Proof.
  apply (X5_allowed_monotone 1 5 3 1 (mk 4 2 1 0)).
  - discriminate.
  - discriminate.
  - discriminate.
  - vm_compute. reflexivity.
Defined.

(** X6.  The bucket starts full: the first call after construction, at any
    clock value not before it and for any cost up to the capacity, is
    allowed and leaves capacity - cost, at every rate that is not
    negative. *)
Theorem X6_first_call_after_init
    (t0 now capacity rate cost : Q) (self : t) :
  0 <= rate ->
  t0 <= now ->
  cost <= capacity ->
  __init__ t0 capacity rate = Return self ->
  allow_request now cost self
  = (Return (true, capacity - cost), mk capacity rate (capacity - cost) now).
Proof.
  intros Hrate Hnow Hcost Hinit.
  unfold __init__ in Hinit. injection Hinit as <-.
  assert (Hr : _refill_tokens now (mk capacity rate capacity t0)
               = mk capacity rate capacity now).
  { apply (refill_full now (mk capacity rate capacity t0)); cbn; lra. }
  rewrite allow_request_allowed by (rewrite Hr; exact Hcost).
  rewrite Hr. reflexivity.
Qed.

Lemma X6_first_call_after_init_witness :
  allow_request 3 1 (mk 10 5 10 0)
  = (Return (true, 10 - 1), mk 10 5 (10 - 1) 3).
Proof.
  apply (X6_first_call_after_init 0 3 10 5 1 (mk 10 5 10 0)).
  - discriminate.
  - discriminate.
  - discriminate.
  - reflexivity.
Defined.

(** ** Sequences of calls: the instance they leave *)

Lemma after_calls_fields (calls : list (Q * Q)) :
  forall self : t,
    max_tokens (after_calls calls self) = max_tokens self /\
    tokens_per_second (after_calls calls self) = tokens_per_second self /\
    last_refill (after_calls calls self) = last_time (last_refill self) calls.
Proof.
  induction calls as [| [now cost] rest IH]; intro self; cbn.
  - auto.
  - destruct (IH (snd (allow_request now cost self))) as (Hm & Hr & Hl).
    destruct (allow_request_config now cost self) as [Hm' Hr'].
    rewrite Hm, Hr, Hl, Hm', Hr', allow_request_last_refill. auto.
Qed.

Lemma after_calls_level_ok (calls : list (Q * Q)) :
  forall self : t,
    level_ok self ->
    0 <= tokens_per_second self ->
    clock_monotone (last_refill self) calls ->
    Forall (fun c => 0 <= snd c) calls ->
    level_ok (after_calls calls self).
Proof.
  induction calls as [| [now cost] rest IH]; intros self Hok Hrate Hclock Hcost.
  - exact Hok.
  - destruct Hclock as [Hnow Hrest].
    inversion Hcost as [| c l Hc Hl]; subst. cbn [snd] in Hc.
    cbn [after_calls]. apply IH.
    + apply allow_request_level_ok; assumption.
    + rewrite (proj2 (allow_request_config now cost self)). exact Hrate.
    + rewrite allow_request_last_refill. exact Hrest.
    + exact Hl.
Qed.

(** ** The demonstration driver *)

(** The condition of [make_requests] holds for every decision. *)
Lemma truth_decision (decision : bool * Q) : Demo.truth decision = true.
Proof. reflexivity. Qed.

Lemma make_requests_loop_lines (clock : nat -> Q) (thread_id : nat)
      (indices : list nat) :
  forall limiter : t,
    exists k : nat,
      (k <= length indices)%nat /\
      fst (fst (Demo.make_requests_loop clock thread_id indices limiter))
      = map (Demo.allowed_line thread_id) (firstn k indices).
Proof.
  induction indices as [| i rest IH]; intro limiter; cbn [Demo.make_requests_loop].
  - exists 0%nat. split; [apply Nat.le_refl | reflexivity].
  - destruct (allow_request (clock i) Demo.default_cost limiter)
      as [[decision | e] limiter'].
    + destruct (IH limiter') as (k & Hk & E).
      destruct (Demo.make_requests_loop clock thread_id rest limiter')
        as [[out r] final].
      exists (S k). split; [cbn; lia |].
      cbn [fst] in *. rewrite truth_decision, E. reflexivity.
    + exists 0%nat. split; [cbn; lia | reflexivity].
Qed.

Lemma make_requests_loop_returns (clock : nat -> Q) (thread_id : nat)
      (indices : list nat) :
  forall limiter : t,
    ~ tokens_per_second limiter == 0 ->
    Demo.make_requests_loop clock thread_id indices limiter
    = (map (Demo.allowed_line thread_id) indices,
       Return tt,
       after_calls (map (fun i => (clock i, Demo.default_cost)) indices)
                   limiter).
Proof.
  induction indices as [| i rest IH]; intros limiter Hrate;
    cbn [Demo.make_requests_loop map after_calls].
  - reflexivity.
  - destruct (allow_request_cases (clock i) Demo.default_cost limiter)
      as [[_ E] | [[_ [_ E]] | [_ [Hz _]]]]; [| | contradiction];
      rewrite E; cbn [snd];
      rewrite IH by exact Hrate; rewrite truth_decision; reflexivity.
Qed.

Module DemoLines.

Import String.

Lemma last_char_app (a b : string) :
  b <> EmptyString -> Demo.last_char (a ++ b) = Demo.last_char b.
Proof.
  intro Hb. induction a as [| c a IH]; [reflexivity |].
  cbn. rewrite IH.
  destruct b as [| c' b]; [contradiction |].
  cbn. destruct (Demo.last_char b); reflexivity.
Qed.

Lemma app_nonempty (a b : string) :
  b <> EmptyString -> (a ++ b)%string <> EmptyString.
Proof.
  intro Hb. destruct a as [| c a]; [exact Hb | discriminate].
Qed.

Lemma allowed_line_last (thread_id i : nat) :
  Demo.last_char (Demo.allowed_line thread_id i)
  = Demo.last_char " ALLOWED".
Proof.
  unfold Demo.allowed_line.
  rewrite !last_char_app by (repeat apply app_nonempty; discriminate).
  reflexivity.
Qed.

Lemma denied_line_last (thread_id i : nat) :
  Demo.last_char (Demo.denied_line thread_id i)
  = Demo.last_char " DENIED - Rate Limited".
Proof.
  unfold Demo.denied_line.
  rewrite !last_char_app by (repeat apply app_nonempty; discriminate).
  reflexivity.
Qed.

(** An ALLOWED line is never a DENIED line. *)
Lemma lines_differ (thread_id i thread_id' i' : nat) :
  Demo.allowed_line thread_id i <> Demo.denied_line thread_id' i'.
Proof.
  intro E. apply (f_equal Demo.last_char) in E.
  rewrite allowed_line_last, denied_line_last in E. discriminate E.
Qed.

End DemoLines.

Lemma firstn_seq_le (k : nat) :
  forall start n : nat, (k <= n)%nat -> firstn k (seq start n) = seq start k.
Proof.
  induction k as [| k IH]; intros start n Hk; [reflexivity |].
  destruct n as [| n]; [lia |].
  cbn. rewrite IH by lia. reflexivity.
Qed.

(** X9.  [make_requests] tests the pair returned by [allow_request], which
    is true as a condition whatever the decision: every line it prints is
    an ALLOWED line, for the requests 1, 2, ... in order, also for the
    requests the limiter denied, and no DENIED line is ever printed.  On a
    limiter whose rate is not zero it
    makes all its calls, with the default cost 1, prints one ALLOWED line
    for each and returns. *)
Theorem X9_make_requests_prints_allowed
    (clock : nat -> Q) (limiter : t) (thread_id num_requests : nat) :
  (exists k : nat,
      (k <= num_requests)%nat /\
      fst (fst (Demo.make_requests clock limiter thread_id num_requests))
      = map (Demo.allowed_line thread_id) (seq 0 k)) /\
  (forall thread_id' i : nat,
      ~ In (Demo.denied_line thread_id' i)
           (fst (fst (Demo.make_requests clock limiter thread_id
                                         num_requests)))) /\
  (~ tokens_per_second limiter == 0 ->
   Demo.make_requests clock limiter thread_id num_requests
   = (map (Demo.allowed_line thread_id) (seq 0 num_requests),
      Return tt,
      after_calls (map (fun i => (clock i, 1)) (seq 0 num_requests)) limiter)).
Proof.
  unfold Demo.make_requests.
  destruct (make_requests_loop_lines clock thread_id (seq 0 num_requests)
                                     limiter) as (k & Hk & E).
  rewrite length_seq in Hk. rewrite firstn_seq_le in E by exact Hk.
  split; [| split].
  - exists k. split; [exact Hk | exact E].
  - intros thread_id' i Hin. rewrite E in Hin.
    apply in_map_iff in Hin as (j & Hj & _).
    exact (DemoLines.lines_differ _ _ _ _ Hj).
  - intro Hrate. apply make_requests_loop_returns. exact Hrate.
Qed.

Lemma X9_make_requests_prints_allowed_witness :
  Demo.make_requests (fun _ => 0) (mk 1 1 1 0) 7 2
  = ([Demo.allowed_line 7 0; Demo.allowed_line 7 1],
     Return tt,
     after_calls [(0, 1); (0, 1)] (mk 1 1 1 0)) /\
  map (fun o => allowed (outcome o)) (run [(0, 1); (0, 1)] (mk 1 1 1 0))
  = [Some true; Some false].
Proof.
  split.
  - apply (proj2 (proj2 (X9_make_requests_prints_allowed
                           (fun _ => 0) (mk 1 1 1 0) 7 2))).
    discriminate.
  - vm_compute. reflexivity.
Defined.

(** ** Concurrent callers with a running clock *)

Lemma last_time_app (calls1 calls2 : list (Q * Q)) :
  forall t0 : Q,
    last_time t0 (calls1 ++ calls2) = last_time (last_time t0 calls1) calls2.
Proof.
  induction calls1 as [| [n c] calls1 IH]; intro t0; cbn; auto.
Qed.

Lemma clock_monotone_app (calls1 calls2 : list (Q * Q)) :
  forall t0 : Q,
    clock_monotone t0 calls1 ->
    clock_monotone (last_time t0 calls1) calls2 ->
    clock_monotone t0 (calls1 ++ calls2).
Proof.
  induction calls1 as [| [n c] calls1 IH]; intros t0 H1 H2; cbn in *.
  - exact H2.
  - destruct H1 as [Hn H1]. split; [exact Hn | apply IH; assumption].
Qed.

Lemma idle_timed (t_last clk : Q) (th : thread) :
  idle th -> thread_timed t_last clk th.
Proof.
  intro Hidle. apply idle_at_line in Hidle.
  unfold thread_timed. rewrite Hidle. exact I.
Qed.

(** A line of a thread and the clock values: a line that ends a call
    reports the clock value the thread read; other lines keep what the
    thread read, and line 33 reads the clock. *)
Lemma thread_step_timed (t_last clk : Q) (self : t) (lk : bool) (th : thread)
      (self' : t) (lk' : bool) (th' : thread) (evs : list event) :
  t_last <= clk ->
  thread_timed t_last clk th ->
  thread_step clk self lk th = Some (self', lk', th', evs) ->
  (evs = [] /\ thread_timed t_last clk th') \/
  (exists r, evs = [Returned (now th) (cost th) r] /\
             at_line th' = Idle /\ in_block th = true /\
             t_last <= now th /\ now th <= clk).
Proof.
  intros Hclk Htimed Hth.
  unfold thread_timed in Htimed. unfold thread_step in Hth.
  destruct (at_line th) eqn:L.
  1: { destruct (todo th); [discriminate |]. destruct lk; [discriminate |].
       injection Hth as <- <- <- <-. left. split; [reflexivity | exact I]. }
  1: { injection Hth as <- <- <- <-. left. split; [reflexivity |].
       unfold thread_timed. cbn. split; [exact Hclk | apply Qle_refl]. }
  all: repeat match type of Hth with
         | context [match ?x with _ => _ end] => destruct x eqn:?
         end;
       injection Hth as <- <- <- <-;
       first
         [ left; split; [reflexivity |]; unfold thread_timed; cbn; exact Htimed
         | right; eexists; unfold in_block; rewrite L;
           repeat split; solve [reflexivity | apply Htimed] ].
Qed.

Lemma timed_step (self0 : t) (tr evs : list event) (s s' : system) :
  linearized self0 tr s ->
  timed self0 tr s ->
  step s evs s' ->
  timed self0 (tr ++ evs) s'.
Proof.
  intros [_ Hst] (Hmono & Hlast & Hths) Hstep.
  destruct Hstep as [before th behind self lk clk self' lk' th' evs Hth
                    | self lk clk d ths Hd];
    cbn [lock threads bucket clock] in *.
  - apply Forall_app in Hths as [Hb Hrest].
    inversion Hrest as [| ? ? Hthis Hbh]; subst.
    destruct (thread_step_timed _ _ _ _ _ _ _ _ _ Hlast Hthis Hth)
      as [[-> Htimed'] | (r & -> & Hidle' & Hin & Hlo & Hhi)].
    + rewrite app_nil_r. repeat split; try assumption.
      apply Forall_app. split; [exact Hb | constructor; assumption].
    + assert (Hothers : Forall idle before /\ Forall idle behind).
      { destruct lk.
        - destruct Hst as (before0 & th0 & behind0 & E & Hb0 & Hbh0 & _).
          destruct (idle_split before0 behind0 th0 Hb0 Hbh0 before behind th
                                Hin E) as [-> [-> ->]].
          auto.
        - destruct Hst as [Hall _].
          apply Forall_app in Hall as [_ Hall].
          inversion Hall as [| ? ? Hi _]; subst.
          unfold idle in Hi. congruence. }
      destruct Hothers as [Hib Hibh].
      unfold timed. cbn [clock threads].
      rewrite calls_of_app. cbn [calls_of].
      rewrite last_time_app. cbn [last_time].
      repeat split.
      * apply clock_monotone_app; [exact Hmono |]. cbn. auto.
      * exact Hhi.
      * apply Forall_app. split.
        -- apply (Forall_impl _ (idle_timed _ _) Hib).
        -- constructor.
           ++ apply idle_timed. apply idle_at_line. exact Hidle'.
           ++ apply (Forall_impl _ (idle_timed _ _) Hibh).
  - unfold timed. cbn [clock threads].
    rewrite calls_of_app. cbn [calls_of]. rewrite app_nil_r.
    repeat split; [exact Hmono | lra |].
    apply (Forall_impl _ (P := thread_timed
                                 (last_time (last_refill self0) (calls_of tr))
                                 clk)); [| exact Hths].
    intros th. unfold thread_timed. destruct (at_line th); auto; intros [? ?];
      split; lra.
Qed.

Lemma timed_steps (self0 : t) (clk0 : Q) (programs : list (list Q))
      (tr : list event) (s : system) :
  last_refill self0 <= clk0 ->
  steps (spawn self0 clk0 programs) tr s ->
  timed self0 tr s.
Proof.
  intros Hclk Hsteps.
  induction Hsteps as [| tr s evs s' Hprefix IH Hstep].
  - repeat split; cbn; [exact Hclk |].
    apply Forall_map. apply Forall_forall. intros costs _. exact I.
  - eapply timed_step; eauto. eapply linearized_steps; eauto.
Qed.

Lemma thread_step_costs (P : Q -> Prop) (clk : Q) (self : t) (lk : bool)
      (th : thread) (self' : t) (lk' : bool) (th' : thread)
      (evs : list event) :
  thread_costs P th ->
  thread_step clk self lk th = Some (self', lk', th', evs) ->
  thread_costs P th' /\ Forall (fun call => P (snd call)) (calls_of evs).
Proof.
  unfold thread_costs, in_block, thread_step. intros [Htodo Hcost] Hth.
  destruct (at_line th) eqn:L.
  1: { destruct (todo th) as [| c rest]; [discriminate |].
       destruct lk; [discriminate |].
       injection Hth as <- <- <- <-. cbn.
       inversion Htodo; subst. auto. }
  all: specialize (Hcost eq_refl);
       repeat match type of Hth with
         | context [match ?x with _ => _ end] => destruct x eqn:?
         end;
       injection Hth as <- <- <- <-; cbn;
       repeat split; auto.
Qed.

Lemma costs_steps (P : Q -> Prop) (self0 : t) (clk0 : Q)
      (programs : list (list Q)) (tr : list event) (s : system) :
  Forall (Forall P) programs ->
  steps (spawn self0 clk0 programs) tr s ->
  costs_in P tr s.
Proof.
  intros Hprog Hsteps.
  induction Hsteps as [| tr s evs s' _ [IHt IHc] Hstep].
  - split; cbn; [| constructor].
    apply Forall_map.
    apply (Forall_impl _ (P := Forall P)); [| exact Hprog].
    intros costs Hc. split; [exact Hc | discriminate].
  - destruct Hstep as [before th behind self lk clk self' lk' th' evs Hth
                      | self lk clk d ths Hd];
      cbn [threads] in *.
    + apply Forall_app in IHt as [Hb Hrest].
      inversion Hrest as [| ? ? Hthis Hbh]; subst.
      destruct (thread_step_costs P _ _ _ _ _ _ _ _ Hthis Hth) as [H' Hevs].
      split.
      * apply Forall_app. split; [exact Hb | constructor; assumption].
      * rewrite calls_of_app. apply Forall_app. split; assumption.
    + split; [exact IHt |].
      rewrite calls_of_app. cbn. rewrite app_nil_r. exact IHc.
Qed.

(** The instance in the hands of the thread that holds the lock is within
    its bounds at every line. *)
Lemma in_progress_ok (base : t) (th : thread) (self : t) (clk : Q) :
  level_ok base ->
  0 <= tokens_per_second base ->
  last_refill base <= clk ->
  thread_timed (last_refill base) clk th ->
  0 <= cost th ->
  in_progress base th self ->
  level_ok self /\ last_refill self <= clk.
Proof.
  intros Hok Hrate Hclk Htimed Hcost Hp.
  unfold in_progress in Hp. unfold thread_timed in Htimed.
  destruct (at_line th).
  1: contradiction.
  1: { subst self. auto. }
  all: destruct Htimed as [Hlo Hhi];
       pose proof (refill_level_ok (now th) base Hok Hrate Hlo) as Hr;
       pose proof (allow_request_level_ok (now th) (cost th) base
                     Hok Hrate Hlo Hcost) as Ha.
  - subst self. auto.
  - destruct Hp as [-> _]. auto.
  - destruct Hp as [-> _]. auto.
  - subst self. split; [exact Hr | exact Hclk].
  - subst self. split; [exact Hr | exact Hhi].
  - destruct Hp as [-> _]. split; [exact Hr | exact Hhi].
  - pose proof (allow_request_last_refill (now th) (cost th) base) as Hl.
    rewrite Hp in Ha, Hl. cbn [snd] in Ha, Hl.
    split; [exact Ha | rewrite Hl; exact Hhi].
  - destruct Hp as [-> _]. split; [exact Hr | exact Hhi].
  - pose proof (allow_request_last_refill (now th) (cost th) base) as Hl.
    rewrite Hp in Ha, Hl. cbn [snd] in Ha, Hl.
    split; [exact Ha | rewrite Hl; exact Hhi].
Qed.

(** X10.  Threads with a running clock.  On an instance that starts with
    its level in [0, capacity], a rate that is not negative and a clock not
    behind [last_refill], with costs that are not negative: in every state
    of every execution, also while a thread is in the middle of a call, the
    level is in [0, capacity] and [last_refill] is not ahead of the clock;
    and the calls end in the order of the clock values they read. *)
Theorem X10_concurrent_level_invariant
    (self : t) (clk : Q) (programs : list (list Q))
    (tr : list event) (s : system) :
  level_ok self ->
  0 <= tokens_per_second self ->
  last_refill self <= clk ->
  Forall (Forall (fun c => 0 <= c)) programs ->
  steps (spawn self clk programs) tr s ->
  level_ok (bucket s) /\
  last_refill (bucket s) <= clock s /\
  clock_monotone (last_refill self) (calls_of tr).
Proof.
  intros Hok Hrate Hclk Hprog Hsteps.
  destruct (linearized_steps _ _ _ _ _ Hsteps) as [_ Hst].
  destruct (timed_steps _ _ _ _ _ Hclk Hsteps) as (Hmono & Hlast & Hths).
  destruct (costs_steps (fun c => 0 <= c) _ _ _ _ _ Hprog Hsteps)
    as [Hcosts Hcalls].
  destruct (after_calls_fields (calls_of tr) self) as (_ & Hr & Hl).
  pose proof (after_calls_level_ok (calls_of tr) self Hok Hrate Hmono Hcalls)
    as Hbase.
  rewrite <- Hl in Hlast, Hths. rewrite <- Hr in Hrate.
  destruct (lock s).
  - destruct Hst as (before & th & behind & E & _ & _ & Hp).
    rewrite E in Hths, Hcosts.
    apply Forall_app in Hths as [_ Hths].
    apply Forall_app in Hcosts as [_ Hcosts].
    inversion Hths as [| ? ? Htimed _]; subst.
    inversion Hcosts as [| ? ? [_ Hcost] _]; subst.
    specialize (Hcost (in_progress_in_block _ _ _ Hp)).
    destruct (in_progress_ok _ _ _ _ Hbase Hrate Hlast Htimed Hcost Hp).
    auto.
  - destruct Hst as [_ ->]. auto.
Qed.

Lemma X10_concurrent_level_invariant_witness :
  exists (start : system) (tr : list event) (s : system),
    Demo.main 0 = Return start /\
    schedule [0; 0; 0; 0; 0; 0; 0; 0; 0; 3; 3; 3; 3; 3; 3; 3; 3]%nat start
    = Some (tr, s) /\
    lock s = true /\ level_ok (bucket s).
Proof.
  exists (spawn (mk 30 10 30 0) 0 (repeat (Demo.program 5) 10)).
  destruct (schedule [0; 0; 0; 0; 0; 0; 0; 0; 0; 3; 3; 3; 3; 3; 3; 3; 3]%nat
                     (spawn (mk 30 10 30 0) 0 (repeat (Demo.program 5) 10)))
    as [[tr s] |] eqn:E; [| vm_compute in E; discriminate E].
  exists tr, s. split; [reflexivity |]. split; [reflexivity |].
  pose proof (schedule_sound _ _ _ _ E) as Hsteps.
  split.
  - vm_compute in E. injection E as <- <-. reflexivity.
  - apply (X10_concurrent_level_invariant
             (mk 30 10 30 0) 0 (repeat (Demo.program 5) 10) tr s).
    + split; discriminate.
    + discriminate.
    + discriminate.
    + repeat constructor; discriminate.
    + exact Hsteps.
Defined.

(** ** The calls of the code, evaluated in binary64 *)

Module Binary64Facts.

Import PrimFloat.

#[local] Set Warnings "-inexact-float".


(** C6, as claimed, fails: on an empty bucket of capacity 30 and rate 55,
    last refilled at 0.297, a call at 0.8424545454545455 comes after an
    idle time of at least capacity / rate; the refill stores
    29.999999999999996, not 30, and the cost 30 is denied. *)
Lemma C6_idle_refill_short_of_capacity :
  let self := Binary64.mk 30 55 0 0.297 in
  let now := 0.8424545454545455%float in
  leb (30 / 55) (now - 0.297) = true /\
  ltb (Binary64.tokens (Binary64._refill_tokens now self)) 30 = true /\
  Binary64.flags [(now, 30%float)] self = [Some false].
Proof. vm_compute. repeat split; reflexivity. Qed.

(** The retry of C5 in binary64: on an empty bucket of capacity 5 and rate
    3 the cost 1 is denied at clock 100 with the wait 0.3333333333333333;
    the same call at clock 100 + wait is denied again, the level being
    just below 1. *)
Lemma C5_retry_denied_by_rounding :
  let self := Binary64.mk 5 3 0 100 in
  exists (wait : float) (after_denial : Binary64.t),
    Binary64.allow_request 100 1 self = (Return (false, wait), after_denial) /\
    Binary64.flags [((100 + wait)%float, 1%float)] after_denial = [Some false].
Proof. vm_compute. do 2 eexists. split; reflexivity. Qed.

End Binary64Facts.
